(** * SARDIN-AI: the real-time distribution layer

    A shallow embedding of the three pieces of code that move real-time
    data in the repository:

    - [Hub]: the WebSocket route (`/api/realtime`, the `ws` server with its
      module-level `clients` set and `DataGenerators.broadcast`);
    - [SocketIO]: `setupSocket` of `src/lib/socket.ts` (the Socket.IO
      variant: a single room, `realtime-data`);
    - [Client]: the browser-side `RealtimeService` (listeners, dispatch,
      heartbeat and reconnection).

    Handlers run to completion on one event loop, so each handler is a
    function from state to state and a run of the system is a list of
    events folded over the state. *)

From stdpp Require Import strings functions gmap fin_maps sorting list.

(** The envelope every producer builds: `{ type, timestamp, data }`.  The
    payload (`data: any`) stays abstract; the optional `location` object is
    never read by the distribution code and travels inside the payload. *)
Record RealtimeData (any : Type) := mkData {
  type : string;
  timestamp : string;
  data : any;
}.
Arguments mkData {any} _ _ _.
Arguments type {any} _.
Arguments timestamp {any} _.
Arguments data {any} _.

(** `WebSocket.readyState`. *)
Inductive ReadyState := CONNECTING | OPEN | CLOSING | CLOSED.

#[global] Instance ReadyState_eq_dec : EqDecision ReadyState.
Proof. solve_decision. Defined.

(** JavaScript `Set` with its insertion order: `add` appends unless the
    element is present, `delete` removes it. *)
Definition Set_add {A} `{EqDecision A} (x : A) (s : list A) : list A :=
  if decide (x ∈ s) then s else s ++ [x].

Definition Set_delete {A} `{EqDecision A} (x : A) (s : list A) : list A :=
  filter (λ y, y ≠ x) s.

(** ** The WebSocket hub *)
Module Hub.

(** A `WebSocket` object is known by its identity. *)
Definition WsId := nat.

(** Frames the server writes.  Their text carries `new Date()` stamps; what
    matters here is which kind of frame it is and, for data frames, the
    string `JSON.stringify` produced. *)
Inductive Frame :=
  | Welcome
  | HeartbeatResponse (received : string)
  | Data (message : string).

#[global] Instance Frame_eq_dec : EqDecision Frame.
Proof. solve_decision. Defined.

(** The state of one server-side socket, as far as the route can observe
    it.  [sendThrows] and [readyState] belong to the transport: the
    environment changes them.  [sent] lists the frames `send` accepted,
    oldest first, and [drained] counts how many of them the peer has read. *)
Record Socket := mkSocket {
  readyState : ReadyState;
  sendThrows : bool;
  sent : list Frame;
  drained : nat;
}.

(** The socket after `send` accepted one more frame. *)
Definition push (f : Frame) (s : Socket) : Socket :=
  mkSocket (readyState s) (sendThrows s) (sent s ++ [f]) (drained s).

(** `ws.send(frame)`: [None] when the call throws; otherwise the frame is
    written if the socket is open and discarded if it is not. *)
Definition ws_send (f : Frame) (s : Socket) : option Socket :=
  if sendThrows s then None
  else if decide (readyState s = OPEN) then Some (push f s) else Some s.

(** The two ways an open socket can answer `send`. *)
Definition writable (s : Socket) : bool :=
  bool_decide (readyState s = OPEN) && negb (sendThrows s).

Definition broken (s : Socket) : bool :=
  bool_decide (readyState s = OPEN) && sendThrows s.

(** Frames accepted by `send` and not yet read by the peer. *)
Definition bufferedFrames (s : Socket) : nat := length (sent s) - drained s.

(** What the handlers write with `console.log` / `console.error`. *)
Inductive Log :=
  | LogConnected
  | LogSendError (client : WsId)
  | LogSubscribed (types : list string)
  | LogUnsubscribed (types : list string)
  | LogParseError
  | LogDisconnected
  | LogWsError.

(** Module state of the route: the `clients` set, the socket objects, the
    next object identity and the console. *)
Record State := mkState {
  clients : list WsId;
  sockets : WsId → Socket;
  nextId : WsId;
  console : list Log;
}.

Definition init : State := mkState [] (λ _, mkSocket CLOSED false [] 0) 0 [].

(** What a client may send, after `JSON.parse`.  [Malformed] stands for a
    text `JSON.parse` rejects and for a subscribe or unsubscribe without
    its `data` object: both end in the handler's `catch`. *)
Inductive ClientMessage :=
  | Malformed
  | Heartbeat (timestamp : string)
  | Subscribe (types : list string)
  | Unsubscribe (types : list string)
  | Other.

(** A call either returns or throws; both leave a state behind. *)
Inductive Result :=
  | Returned (st : State)
  | Threw (st : State).

Definition state_of (r : Result) : State :=
  match r with Returned st | Threw st => st end.

(** What holds of the hub in every run: the client set has no duplicate,
    its members are objects already created, and a peer has read no more
    than was written to it. *)
Definition wf (st : State) : Prop :=
  NoDup (clients st)
  ∧ (∀ c, c ∈ clients st → c < nextId st)
  ∧ (∀ c, drained (sockets st c) ≤ length (sent (sockets st c))).

Section WithSerializer.

Context {any : Type}.
(** `JSON.stringify`; [None] when it throws (circular structure, BigInt). *)
Variable JSON_stringify : RealtimeData any → option string.

(** Body of the `forEach` callback in `broadcast`. *)
Definition send_to (message : string) (st : State) (client : WsId) : State :=
  let s := sockets st client in
  if decide (readyState s = OPEN) then
    match ws_send (Data message) s with
    | Some s' =>
        mkState (clients st) (<[client := s']> (sockets st)) (nextId st) (console st)
    | None =>
        mkState (Set_delete client (clients st)) (sockets st) (nextId st)
                (console st ++ [LogSendError client])
    end
  else st.

(** `DataGenerators.broadcast(data)`.  `Set.prototype.forEach` visits the
    elements in insertion order and the callback deletes nothing but the
    element being visited, so the loop visits exactly the elements present
    when it starts. *)
Definition broadcast (d : RealtimeData any) (st : State) : Result :=
  match JSON_stringify d with
  | None => Threw st
  | Some message => Returned (foldl (send_to message) st (clients st))
  end.

(** `wss.on('connection', ws => ...)`: the socket handed over is a new
    object, open, and it accepts the welcome frame. *)
Definition on_connection (st : State) : State :=
  let ws := nextId st in
  mkState (Set_add ws (clients st))
          (<[ws := mkSocket OPEN false [Welcome] 0]> (sockets st))
          (S ws)
          (console st ++ [LogConnected]).

(** `ws.on('message', ...)`. *)
Definition on_message (ws : WsId) (m : ClientMessage) (st : State) : State :=
  match m with
  | Malformed =>
      mkState (clients st) (sockets st) (nextId st) (console st ++ [LogParseError])
  | Heartbeat ts =>
      match ws_send (HeartbeatResponse ts) (sockets st ws) with
      | Some s' => mkState (clients st) (<[ws := s']> (sockets st)) (nextId st) (console st)
      | None => mkState (clients st) (sockets st) (nextId st) (console st ++ [LogParseError])
      end
  | Subscribe types =>
      mkState (clients st) (sockets st) (nextId st) (console st ++ [LogSubscribed types])
  | Unsubscribe types =>
      mkState (clients st) (sockets st) (nextId st) (console st ++ [LogUnsubscribed types])
  | Other => st
  end.

(** `ws.on('close', ...)` and `ws.on('error', ...)`. *)
Definition on_close (ws : WsId) (st : State) : State :=
  mkState (Set_delete ws (clients st)) (sockets st) (nextId st)
          (console st ++ [LogDisconnected]).

Definition on_error (ws : WsId) (st : State) : State :=
  mkState (Set_delete ws (clients st)) (sockets st) (nextId st)
          (console st ++ [LogWsError]).

(** The transport moves a socket to another ready state or makes its
    `send` fail (or work again); the peer reads one buffered frame. *)
Definition transport (ws : WsId) (rs : ReadyState) (throws : bool) (st : State) : State :=
  let s := sockets st ws in
  mkState (clients st)
          (<[ws := mkSocket rs throws (sent s) (drained s)]> (sockets st))
          (nextId st) (console st).

Definition peer_reads (ws : WsId) (st : State) : State :=
  let s := sockets st ws in
  if decide (drained s < length (sent s)) then
    mkState (clients st)
            (<[ws := mkSocket (readyState s) (sendThrows s) (sent s) (S (drained s))]> (sockets st))
            (nextId st) (console st)
  else st.

(** Everything that can happen to the hub.  [Publish] is a call of
    `broadcast` (from the POST handler or a generator tick); an exception
    from it is caught by the caller and the hub carries on. *)
Inductive Event :=
  | Connection
  | Message (ws : WsId) (m : ClientMessage)
  | Close (ws : WsId)
  | Error (ws : WsId)
  | Publish (d : RealtimeData any)
  | Transport (ws : WsId) (rs : ReadyState) (throws : bool)
  | PeerReads (ws : WsId).

Definition step (st : State) (e : Event) : State :=
  match e with
  | Connection => on_connection st
  | Message ws m => on_message ws m st
  | Close ws => on_close ws st
  | Error ws => on_error ws st
  | Publish d => state_of (broadcast d st)
  | Transport ws rs throws => transport ws rs throws st
  | PeerReads ws => peer_reads ws st
  end.

Definition run_from (st : State) (tr : list Event) : State := foldl step st tr.
Definition run (tr : list Event) : State := run_from init tr.

(** The strings published in a run, in publish order, and the data frames
    among the frames written to a socket, in the order written. *)
Definition published (tr : list Event) : list string :=
  omap (λ e, match e with Publish d => JSON_stringify d | _ => None end) tr.

Definition data_frames (fs : list Frame) : list string :=
  omap (λ f, match f with Data message => Some message | _ => None end) fs.

(** The events that can take [c] out of the client set: its `close`, its
    `error`, and the transport making its `send` throw. *)
Definition harms (c : WsId) (e : Event) : bool :=
  match e with
  | Close ws | Error ws => bool_decide (ws = c)
  | Transport ws _ throws => bool_decide (ws = c) && throws
  | _ => false
  end.

End WithSerializer.

End Hub.

(** ** The Socket.IO variant (`src/lib/socket.ts`) *)
Module SocketIO.

Definition SocketId := string.

(** What `socket.emit` sends back to the socket itself. *)
Inductive Emitted :=
  | EchoMessage (text : string)
  | SubscriptionConfirmed (types : list string)
  | HeartbeatResponse (received : string)
  | SystemWelcome (connectionId : SocketId).

Inductive Log :=
  | LogConnected (id : SocketId)
  | LogSubscribed (id : SocketId) (types : list string)
  | LogUnsubscribed (id : SocketId) (types : list string)
  | LogDisconnected (id : SocketId).

(** The only room the code uses is `realtime-data`; [room] is its member
    set.  [emitted] lists what each socket was sent. *)
Record State := mkState {
  room : list SocketId;
  emitted : SocketId → list Emitted;
  console : list Log;
}.

Definition init : State := mkState [] (λ _, []) [].

Definition emit (id : SocketId) (e : Emitted) (st : State) : State :=
  mkState (room st) (<[id := emitted st id ++ [e]]> (emitted st)) (console st).

(** `io.on('connection', socket => ...)`: log, register the handlers, send
    the welcome. *)
Definition on_connection (id : SocketId) (st : State) : State :=
  emit id (SystemWelcome id)
       (mkState (room st) (emitted st) (console st ++ [LogConnected id])).

(** `socket.on('message', ...)`: echo to the sender only. *)
Definition on_message (id : SocketId) (text : string) (st : State) : State :=
  emit id (EchoMessage text) st.

(** `socket.on('subscribe', ...)`: log, `socket.join('realtime-data')`,
    confirm.  The requested types are echoed back and not stored. *)
Definition on_subscribe (id : SocketId) (types : list string) (st : State) : State :=
  emit id (SubscriptionConfirmed types)
       (mkState (Set_add id (room st)) (emitted st)
                (console st ++ [LogSubscribed id types])).

(** `socket.on('unsubscribe', ...)`: log, `socket.leave('realtime-data')`. *)
Definition on_unsubscribe (id : SocketId) (types : list string) (st : State) : State :=
  mkState (Set_delete id (room st)) (emitted st)
          (console st ++ [LogUnsubscribed id types]).

(** `socket.on('heartbeat', ...)`. *)
Definition on_heartbeat (id : SocketId) (ts : string) (st : State) : State :=
  emit id (HeartbeatResponse ts) st.

(** `socket.on('disconnect', ...)`: the handler logs; Socket.IO itself has
    taken the socket out of its rooms by then. *)
Definition on_disconnect (id : SocketId) (st : State) : State :=
  mkState (Set_delete id (room st)) (emitted st)
          (console st ++ [LogDisconnected id]).

End SocketIO.

(** ** The browser client: `RealtimeService` *)
Module Client.

Inductive Status := connecting | connected | disconnected.

(** A listener function is known by its identity. *)
Definition Callback := nat.

(** Frames the client writes on its socket. *)
Inductive Frame :=
  | HeartbeatFrame
  | Payload (json : string).

Inductive Log :=
  | LogOpen
  | LogClosed
  | LogWsError
  | LogParseError
  | LogListenerError
  | LogConnectFailed
  | LogMaxAttempts
  | LogReconnectIn (delay attempt : Z)
  | LogNotConnected.

(** Callbacks handed to `setTimeout`. *)
Inductive Task :=
  | ReconnectTask
  | ProcessNextTask.

(** `indexOf` on an array of listeners. *)
Fixpoint indexOf (cb : Callback) (l : list Callback) : option nat :=
  match l with
  | [] => None
  | x :: l' => if decide (x = cb) then Some 0 else S <$> indexOf cb l'
  end.

(** The reconnection attempts announced on the console since the socket
    last opened, each with its delay and its number. *)
Definition attempts_since_open (l : list Log) : list (Z * Z) :=
  foldl (λ acc e, match e with
                  | LogOpen => []
                  | LogReconnectIn delay attempt => acc ++ [(delay, attempt)]
                  | _ => acc
                  end) [] l.

(** Attempts 1 to [k] of the exponential schedule: attempt N waits
    1000 * 2^(N-1) ms. *)
Definition backoff_schedule (k : Z) : list (Z * Z) :=
  (λ N, (1000 * 2 ^ (N - 1), N)%Z) <$> seqZ 1 k.

Section WithPayload.

Context {any : Type}.

(** The fields of `RealtimeService`, then the part of the browser it
    talks to: the clock and the pending `setTimeout` calls (with their due
    time), the running `setInterval` handles (with their period), the
    frames written, the listener invocations made, and the console. *)
Record State := mkState {
  ws : option ReadyState;
  reconnectAttempts : Z;
  maxReconnectAttempts : Z;
  reconnectDelay : Z;
  listeners : gmap string (list Callback);
  connectionStatus : Status;
  heartbeatInterval : option nat;
  messageQueue : list (RealtimeData any);
  isProcessingQueue : bool;
  now : Z;
  timeouts : list (Z * Task);
  intervals : list (nat * Z);
  nextHandle : nat;
  wire : list Frame;
  calls : list (Callback * RealtimeData any);
  console : list Log;
}.

(** Field values of a `RealtimeService` before its constructor body runs. *)
Definition fields : State :=
  mkState None 0%Z 5%Z 1000%Z ∅ disconnected None [] false 0%Z [] [] 0 [] [] [].

Definition set_ws v (s : State) : State :=
  mkState v (reconnectAttempts s) (maxReconnectAttempts s) (reconnectDelay s)
    (listeners s) (connectionStatus s) (heartbeatInterval s) (messageQueue s)
    (isProcessingQueue s) (now s) (timeouts s) (intervals s) (nextHandle s)
    (wire s) (calls s) (console s).

Definition set_reconnectAttempts v (s : State) : State :=
  mkState (ws s) v (maxReconnectAttempts s) (reconnectDelay s)
    (listeners s) (connectionStatus s) (heartbeatInterval s) (messageQueue s)
    (isProcessingQueue s) (now s) (timeouts s) (intervals s) (nextHandle s)
    (wire s) (calls s) (console s).

Definition set_listeners v (s : State) : State :=
  mkState (ws s) (reconnectAttempts s) (maxReconnectAttempts s) (reconnectDelay s)
    v (connectionStatus s) (heartbeatInterval s) (messageQueue s)
    (isProcessingQueue s) (now s) (timeouts s) (intervals s) (nextHandle s)
    (wire s) (calls s) (console s).

Definition set_connectionStatus v (s : State) : State :=
  mkState (ws s) (reconnectAttempts s) (maxReconnectAttempts s) (reconnectDelay s)
    (listeners s) v (heartbeatInterval s) (messageQueue s)
    (isProcessingQueue s) (now s) (timeouts s) (intervals s) (nextHandle s)
    (wire s) (calls s) (console s).

Definition set_heartbeat v ivs nh (s : State) : State :=
  mkState (ws s) (reconnectAttempts s) (maxReconnectAttempts s) (reconnectDelay s)
    (listeners s) (connectionStatus s) v (messageQueue s)
    (isProcessingQueue s) (now s) (timeouts s) ivs nh
    (wire s) (calls s) (console s).

Definition set_messageQueue v (s : State) : State :=
  mkState (ws s) (reconnectAttempts s) (maxReconnectAttempts s) (reconnectDelay s)
    (listeners s) (connectionStatus s) (heartbeatInterval s) v
    (isProcessingQueue s) (now s) (timeouts s) (intervals s) (nextHandle s)
    (wire s) (calls s) (console s).

Definition set_isProcessingQueue v (s : State) : State :=
  mkState (ws s) (reconnectAttempts s) (maxReconnectAttempts s) (reconnectDelay s)
    (listeners s) (connectionStatus s) (heartbeatInterval s) (messageQueue s)
    v (now s) (timeouts s) (intervals s) (nextHandle s)
    (wire s) (calls s) (console s).

Definition set_now v (s : State) : State :=
  mkState (ws s) (reconnectAttempts s) (maxReconnectAttempts s) (reconnectDelay s)
    (listeners s) (connectionStatus s) (heartbeatInterval s) (messageQueue s)
    (isProcessingQueue s) v (timeouts s) (intervals s) (nextHandle s)
    (wire s) (calls s) (console s).

Definition set_timeouts v (s : State) : State :=
  mkState (ws s) (reconnectAttempts s) (maxReconnectAttempts s) (reconnectDelay s)
    (listeners s) (connectionStatus s) (heartbeatInterval s) (messageQueue s)
    (isProcessingQueue s) (now s) v (intervals s) (nextHandle s)
    (wire s) (calls s) (console s).

Definition set_wire v (s : State) : State :=
  mkState (ws s) (reconnectAttempts s) (maxReconnectAttempts s) (reconnectDelay s)
    (listeners s) (connectionStatus s) (heartbeatInterval s) (messageQueue s)
    (isProcessingQueue s) (now s) (timeouts s) (intervals s) (nextHandle s)
    v (calls s) (console s).

Definition set_calls v (s : State) : State :=
  mkState (ws s) (reconnectAttempts s) (maxReconnectAttempts s) (reconnectDelay s)
    (listeners s) (connectionStatus s) (heartbeatInterval s) (messageQueue s)
    (isProcessingQueue s) (now s) (timeouts s) (intervals s) (nextHandle s)
    (wire s) v (console s).

Definition log (l : Log) (s : State) : State :=
  mkState (ws s) (reconnectAttempts s) (maxReconnectAttempts s) (reconnectDelay s)
    (listeners s) (connectionStatus s) (heartbeatInterval s) (messageQueue s)
    (isProcessingQueue s) (now s) (timeouts s) (intervals s) (nextHandle s)
    (wire s) (calls s) (console s ++ [l]).

(** `setTimeout(task, delay)`: the task is due [delay] ms from now. *)
Definition setTimeout (t : Task) (delay : Z) (s : State) : State :=
  set_timeouts (timeouts s ++ [((now s + delay)%Z, t)]) s.

(** What running a listener does, besides being recorded in [calls]: it
    may change the listener table through the public API (`subscribe`, the
    functions `subscribe` returned, `unsubscribeAll`), and it may throw. *)
Variable effect :
  Callback → RealtimeData any → gmap string (list Callback) → gmap string (list Callback).
Variable throws : Callback → RealtimeData any → bool.

(** One turn of the `forEach` in `handleMessage`: `listener(data)` inside
    its `try`/`catch`. *)
Definition invoke (d : RealtimeData any) (s : State) (listener : Callback) : State :=
  let s' := set_calls (calls s ++ [(listener, d)])
              (set_listeners (effect listener d (listeners s)) s) in
  if throws listener d then log LogListenerError s' else s'.

(** `handleMessage(data)`. *)
Definition handleMessage (d : RealtimeData any) (s : State) : State :=
  if isProcessingQueue s then set_messageQueue (messageQueue s ++ [d]) s
  else
    let typeListeners := default [] (listeners s !! type d) in
    let allListeners := default [] (listeners s !! "*") in
    foldl (invoke d) s (typeListeners ++ allListeners).

(** `processNext`, the closure inside `processMessageQueue`. *)
Definition processNext (s : State) : State :=
  match messageQueue s with
  | [] => set_isProcessingQueue false s
  | message :: rest =>
      setTimeout ProcessNextTask 0%Z (handleMessage message (set_messageQueue rest s))
  end.

(** `processMessageQueue()`. *)
Definition processMessageQueue (s : State) : State :=
  if isProcessingQueue s || bool_decide (length (messageQueue s) = 0) then s
  else processNext (set_isProcessingQueue true s).

(** `startHeartbeat()`: a new `setInterval` of 30000 ms; its handle
    replaces the one stored, which is not cleared. *)
Definition startHeartbeat (s : State) : State :=
  set_heartbeat (Some (nextHandle s)) (intervals s ++ [(nextHandle s, 30000%Z)])
                (S (nextHandle s)) s.

(** `stopHeartbeat()`. *)
Definition stopHeartbeat (s : State) : State :=
  match heartbeatInterval s with
  | Some h => set_heartbeat None (filter (λ iv, iv.1 ≠ h) (intervals s)) (nextHandle s) s
  | None => s
  end.

(** The callback of a heartbeat interval; it runs only while an interval
    is registered. *)
Definition heartbeat_tick (s : State) : State :=
  match intervals s, ws s with
  | _ :: _, Some OPEN => set_wire (wire s ++ [HeartbeatFrame]) s
  | _, _ => s
  end.

(** `attemptReconnect()`. *)
Definition attemptReconnect (s : State) : State :=
  if decide (maxReconnectAttempts s ≤ reconnectAttempts s)%Z then log LogMaxAttempts s
  else
    let attempts := (reconnectAttempts s + 1)%Z in
    let delay := (reconnectDelay s * 2 ^ (attempts - 1))%Z in
    setTimeout ReconnectTask delay
      (log (LogReconnectIn delay attempts) (set_reconnectAttempts attempts s)).

(** `connect()`; [fails] tells whether `new WebSocket(url)` throws. *)
Definition connect (fails : bool) (s : State) : State :=
  if fails then attemptReconnect (log LogConnectFailed s)
  else set_connectionStatus connecting (set_ws (Some CONNECTING) s).

(** `new RealtimeService()`. *)
Definition new (fails : bool) : State := connect fails fields.

(** `ws.onopen`. *)
Definition onopen (s : State) : State :=
  processMessageQueue
    (startHeartbeat
       (set_reconnectAttempts 0%Z
          (set_connectionStatus connected
             (log LogOpen (set_ws (option_map (λ _, OPEN) (ws s)) s))))).

(** `ws.onmessage`; [None] is a frame `JSON.parse` rejects. *)
Definition onmessage (frame : option (RealtimeData any)) (s : State) : State :=
  match frame with
  | Some d => handleMessage d s
  | None => log LogParseError s
  end.

(** `ws.onclose`. *)
Definition onclose (s : State) : State :=
  attemptReconnect
    (stopHeartbeat
       (set_connectionStatus disconnected
          (log LogClosed (set_ws (option_map (λ _, CLOSED) (ws s)) s)))).

(** `ws.onerror`. *)
Definition onerror (s : State) : State :=
  set_connectionStatus disconnected (log LogWsError s).

(** `subscribe(type, callback)`, as far as the service changes. *)
Definition subscribe (ty : string) (callback : Callback)
    (l : gmap string (list Callback)) : gmap string (list Callback) :=
  <[ty := default [] (l !! ty) ++ [callback]]> l.

(** The function `subscribe(type, callback)` returns. *)
Definition unsubscribe (ty : string) (callback : Callback)
    (l : gmap string (list Callback)) : gmap string (list Callback) :=
  match l !! ty with
  | Some typeListeners =>
      match indexOf callback typeListeners with
      | Some index => <[ty := delete index typeListeners]> l
      | None => l
      end
  | None => l
  end.

(** `unsubscribeAll()`. *)
Definition unsubscribeAll (l : gmap string (list Callback)) : gmap string (list Callback) := ∅.

Definition getConnectionStatus (s : State) : Status := connectionStatus s.

(** `send(data)`; [json] is `JSON.stringify(data)`. *)
Definition send (json : string) (s : State) : State :=
  match ws s with
  | Some OPEN => set_wire (wire s ++ [Payload json]) s
  | _ => log LogNotConnected s
  end.

(** `disconnect()`. *)
Definition disconnect (s : State) : State :=
  set_listeners (unsubscribeAll (listeners s))
    (set_ws None (stopHeartbeat s)).

(** Running the [k]-th pending timeout once it is due. *)
Definition fire (k : nat) (fails : bool) (s : State) : State :=
  match timeouts s !! k with
  | Some (due, t) =>
      if decide (due ≤ now s)%Z then
        let s' := set_timeouts (delete k (timeouts s)) s in
        match t with
        | ReconnectTask => connect fails s'
        | ProcessNextTask => processNext s'
        end
      else s
  | None => s
  end.

(** Everything that can happen to the service: socket events, timers, the
    passing of time, and calls of its public methods. *)
Inductive Event :=
  | Opened
  | Received (frame : option (RealtimeData any))
  | Closed
  | Errored
  | Elapse (ms : N)
  | Fire (k : nat) (fails : bool)
  | HeartbeatTick
  | CallSubscribe (ty : string) (callback : Callback)
  | CallUnsubscribe (ty : string) (callback : Callback)
  | CallUnsubscribeAll
  | CallSend (json : string)
  | CallDisconnect.

Definition step (s : State) (e : Event) : State :=
  match e with
  | Opened => onopen s
  | Received frame => onmessage frame s
  | Closed => onclose s
  | Errored => onerror s
  | Elapse ms => set_now (now s + Z.of_N ms)%Z s
  | Fire k fails => fire k fails s
  | HeartbeatTick => heartbeat_tick s
  | CallSubscribe ty cb => set_listeners (subscribe ty cb (listeners s)) s
  | CallUnsubscribe ty cb => set_listeners (unsubscribe ty cb (listeners s)) s
  | CallUnsubscribeAll => set_listeners (unsubscribeAll (listeners s)) s
  | CallSend json => send json s
  | CallDisconnect => disconnect s
  end.

Definition run_from (s : State) (tr : list Event) : State := foldl step s tr.

(** A run starts with the construction of the service. *)
Definition run (fails : bool) (tr : list Event) : State := run_from (new fails) tr.

(** The state in which `onclose` calls `attemptReconnect`. *)
Definition closing (s : State) : State :=
  stopHeartbeat
    (set_connectionStatus disconnected
       (log LogClosed (set_ws (option_map (λ _, CLOSED) (ws s)) s))).

(** What holds of the service in every run. *)
Definition inv (s : State) : Prop :=
  isProcessingQueue s = false
  ∧ messageQueue s = []
  ∧ maxReconnectAttempts s = 5%Z
  ∧ reconnectDelay s = 1000%Z
  ∧ (0 ≤ reconnectAttempts s ≤ 5)%Z
  ∧ attempts_since_open (console s) = backoff_schedule (reconnectAttempts s)
  ∧ Forall (λ iv, iv.2 = 30000%Z) (intervals s).

(** The fields a dispatch leaves alone. *)
Definition same_but_dispatch (s s' : State) : Prop :=
  isProcessingQueue s' = isProcessingQueue s
  ∧ messageQueue s' = messageQueue s
  ∧ maxReconnectAttempts s' = maxReconnectAttempts s
  ∧ reconnectDelay s' = reconnectDelay s
  ∧ reconnectAttempts s' = reconnectAttempts s
  ∧ attempts_since_open (console s') = attempts_since_open (console s)
  ∧ intervals s' = intervals s
  ∧ timeouts s' = timeouts s
  ∧ now s' = now s.

End WithPayload.

End Client.

(** ** The spec's own notions, to compare the code with *)
Module Spec.
Import Hub.

Section WithSerializer.

Context {any : Type}.
Variable JSON_stringify : RealtimeData any → option string.

(** The Channel Registry in the spec's words: a subscribe request adds the
    connection to each topic it names, an unsubscribe request removes it,
    and closing the connection removes it from every topic. *)
Definition registry_step (reg : WsId → string → bool) (e : @Event any)
    : WsId → string → bool :=
  match e with
  | Message ws (Subscribe types) =>
      λ c T, if decide (c = ws ∧ T ∈ types) then true else reg c T
  | Message ws (Unsubscribe types) =>
      λ c T, if decide (c = ws ∧ T ∈ types) then false else reg c T
  | Close ws | Error ws =>
      λ c T, if decide (c = ws) then false else reg c T
  | _ => reg
  end.

Definition subscribed (tr : list (@Event any)) : WsId → string → bool :=
  foldl registry_step (λ _ _, false) tr.

(** P1 in the spec's words: a publish to topic T reaches every connection
    subscribed to T (when its socket works) exactly once, and reaches no
    connection that is not subscribed to T. *)
Definition fan_out_by_topic : Prop :=
  ∀ (tr : list Event) (d : RealtimeData any) (message : string) (c : WsId),
    JSON_stringify d = Some message →
    let st := run JSON_stringify tr in
    let st' := state_of (broadcast JSON_stringify d st) in
    (subscribed tr c (type d) = true → writable (sockets st c) = true →
       sent (sockets st' c) = sent (sockets st c) ++ [Data message]) ∧
    (subscribed tr c (type d) = false →
       sent (sockets st' c) = sent (sockets st c)).


(** The backpressure policy for a queue limit: a connection whose buffer
    holds more than [limit] frames has been dropped by the hub. *)
Definition backpressure_policy (limit : nat) : Prop :=
  ∀ (tr : list Event) (c : WsId),
    limit < bufferedFrames (sockets (run JSON_stringify tr) c) →
    c ∉ clients (run JSON_stringify tr).

(** A log of events with the time (ms) at which each was handled, and the
    hub at time [t]: the state after the events handled up to [t]. *)
Definition chronological (tt : list (Z * @Event any)) : Prop :=
  StronglySorted Z.le (tt.*1).

Definition state_at (tt : list (Z * @Event any)) (t : Z) : State :=
  run JSON_stringify (filter (λ te, (te.1 ≤ t)%Z) tt).*2.

(** P5 for a timeout and a heartbeat interval: a connection that is
    connected at [t0] and from which nothing is heard after [t0] (no
    heartbeat, no other message) is out of the client set once the hub
    has handled an event later than [t0 + timeout + interval]. *)
Definition heartbeat_liveness (timeout interval : Z) : Prop :=
  ∀ (tt : list (Z * Event)) (c : WsId) (t0 t1 t : Z) (e : Event),
    chronological tt →
    c ∈ clients (state_at tt t0) →
    (∀ t' m, (t', Message c m) ∈ tt → (t' ≤ t0)%Z) →
    (t1, e) ∈ tt →
    (t0 + timeout + interval < t1 ≤ t)%Z →
    c ∉ clients (state_at tt t).

(** Scenario C generalised: a publish to a topic that no connection is
    subscribed to returns and delivers nothing. *)
Definition publish_without_subscribers : Prop :=
  ∀ (tr : list Event) (d : RealtimeData any) (message : string),
    JSON_stringify d = Some message →
    (∀ c, subscribed tr c (type d) = false) →
    let st := run JSON_stringify tr in
    ∃ st', broadcast JSON_stringify d st = Returned st'
      ∧ ∀ c, sent (sockets st' c) = sent (sockets st c).

End WithSerializer.

(** P2 in the spec's words, for the client's listener table: subscribing
    twice in a row is the same as subscribing once. *)
Definition subscribe_idempotent : Prop :=
  ∀ (ty : string) (callback : Client.Callback) (l : gmap string (list Client.Callback)),
    Client.subscribe ty callback (Client.subscribe ty callback l)
    = Client.subscribe ty callback l.

End Spec.

(** ** Concrete payloads for the scenarios *)
Module Scenario.

(** A payload is given by its JSON text, or is a value `JSON.stringify`
    rejects. *)
Inductive Payload :=
  | Json (text : string)
  | Circular.

Definition stringify (d : RealtimeData Payload) : option string :=
  match data d with
  | Json text => Some (type d +:+ " " +:+ timestamp d +:+ " " +:+ text)
  | Circular => None
  end.

Definition storm : RealtimeData Payload :=
  mkData "alert" "2024-06-01T12:00:00.000Z" (Json "weather_warning high Storm").

Definition sample : RealtimeData Payload :=
  mkData "oceanographic" "2024-06-01T12:00:05.000Z" (Json "sea_surface_temp 18").

Definition cyclic : RealtimeData Payload :=
  mkData "system" "2024-06-01T12:00:10.000Z" Circular.

Definition position : RealtimeData Payload :=
  mkData "vessel" "2024-06-01T12:00:15.000Z" (Json "vessel_7 31.8 -116.6").

(** Listener behaviours for the scenarios:
    listener 13 throws, listener 2 unsubscribes listener 3 from `alert`. *)
Definition quiet (cb : Client.Callback) (d : RealtimeData Scenario.Payload)
    (l : gmap string (list Client.Callback)) : gmap string (list Client.Callback) :=
  if decide (cb = 2) then Client.unsubscribe "alert" 3 l else l.

Definition unlucky (cb : Client.Callback) (d : RealtimeData Scenario.Payload) : bool :=
  bool_decide (cb = 13).

End Scenario.

(** ** Runs of the Socket.IO server *)
Module SocketIORun.
Import SocketIO.

(** What a socket can make the server handle. *)
Inductive Event :=
  | Connect (id : SocketId)
  | Say (id : SocketId) (text : string)
  | Sub (id : SocketId) (types : list string)
  | Unsub (id : SocketId) (types : list string)
  | Beat (id : SocketId) (ts : string)
  | Disconnect (id : SocketId).

Definition socket_of (e : Event) : SocketId :=
  match e with
  | Connect id | Say id _ | Sub id _ | Unsub id _ | Beat id _ | Disconnect id => id
  end.

Definition step (st : State) (e : Event) : State :=
  match e with
  | Connect id => on_connection id st
  | Say id text => on_message id text st
  | Sub id types => on_subscribe id types st
  | Unsub id types => on_unsubscribe id types st
  | Beat id ts => on_heartbeat id ts st
  | Disconnect id => on_disconnect id st
  end.

Definition run_from (st : State) (tr : list Event) : State := foldl step st tr.
Definition run (tr : list Event) : State := run_from init tr.

(** Whether the last subscribe, unsubscribe or disconnect of [id] in a
    run was a subscribe; the types named play no part. *)
Definition last_was_subscribe (id : SocketId) (tr : list Event) : bool :=
  foldl (λ b e, match e with
                | Sub i _ => if decide (i = id) then true else b
                | Unsub i _ | Disconnect i => if decide (i = id) then false else b
                | _ => b
                end) false tr.

(** What the server sends back for one event. *)
Definition reply (e : Event) : list Emitted :=
  match e with
  | Connect id => [SystemWelcome id]
  | Say _ text => [EchoMessage text]
  | Sub _ types => [SubscriptionConfirmed types]
  | Unsub _ _ => []
  | Beat _ ts => [HeartbeatResponse ts]
  | Disconnect _ => []
  end.

End SocketIORun.

(** ** `DataGenerators`: the four interval timers *)
Module Generators.

(** The `intervals` map of the class (name to handle), and the part of the
    event loop it acts on: the `setInterval` timers that are running, each
    with its handle and its period in ms. *)
Record State := mkState {
  intervals : gmap string nat;
  timers : list (nat * Z);
  nextTimer : nat;
}.

Definition init : State := mkState ∅ [] 0.

(** `const interval = setInterval(..., period); this.intervals.set(name, interval)`. *)
Definition start (name : string) (period : Z) (g : State) : State :=
  mkState (<[name := nextTimer g]> (intervals g))
          (timers g ++ [(nextTimer g, period)])
          (S (nextTimer g)).

Definition startOceanographicData := start "oceanographic" 5000.
Definition startPredictionData := start "prediction" 10000.
Definition startVesselData := start "vessel" 15000.
Definition startSystemAlerts := start "alerts" 30000.

(** `startGenerating()`. *)
Definition startGenerating (g : State) : State :=
  startSystemAlerts (startVesselData (startPredictionData (startOceanographicData g))).

(** The handles held in the map. *)
Definition handles (g : State) : list nat := (map_to_list (intervals g)).*2.

(** `stopGenerating()`: `clearInterval` on each handle held, then
    `intervals.clear()`. *)
Definition stopGenerating (g : State) : State :=
  mkState ∅ (filter (λ t, t.1 ∉ handles g) (timers g)) (nextTimer g).

(** `isRunning()` (the Socket.IO variant of the class). *)
Definition isRunning (g : State) : bool := bool_decide (0 < size (intervals g)).

End Generators.

(** ** The WebSocket route as a whole: `GET`, `POST`, the server and its
    generators *)
Module Route.

(** Answers of the two HTTP handlers. *)
Inductive Response :=
  | Running (connectedClients : nat)
  | Broadcasted
  | UnknownType
  | InternalError.

Section WithJson.

(** A JSON value taken from a request or made by a generator. *)
Context {json : Type}.

(** What the route puts in `data` of an envelope: the object `POST`
    builds for a custom alert, or a value handed on as it came (possibly
    `undefined`). *)
Inductive Payload :=
  | AlertData (type severity message : string) (location : option json)
              (action_required : bool)
  | Forwarded (value : option json).

(** The `data` object of a `POST` body, with the fields the handler
    reads; a field that is absent is [None]. *)
Record RequestData := mkRequestData {
  alertType : option string;
  severity : option string;
  message : option string;
  location : option json;
  actionRequired : option bool;
  predictionData : option json;
  messageData : option json;
}.

Record Body := mkBody {
  body_type : option string;
  body_data : option RequestData;
}.

(** `value || fallback` on a string that may be absent: the empty string
    is falsy too. *)
Definition or_else (value : option string) (fallback : string) : string :=
  match value with
  | Some s => if decide (s = "") then fallback else s
  | None => fallback
  end.

Variable JSON_stringify : RealtimeData Payload → option string.

(** Module state: whether `wss` is set, the hub, the generators. *)
Record State := mkState {
  wss : bool;
  hub : Hub.State;
  generators : Generators.State;
}.

Definition init : State := mkState false Hub.init Generators.init.

(** `initializeWebSocketServer()`: the test on `clients.size` is made once,
    here, when the server is created. *)
Definition initializeWebSocketServer (st : State) : State :=
  if wss st then st
  else if decide (length (Hub.clients (hub st)) = 1)
       then mkState true (hub st) (Generators.startGenerating (generators st))
       else mkState true (hub st) (generators st).

(** `GET`. *)
Definition GET (st : State) : State * Response :=
  let st' := if wss st then st else initializeWebSocketServer st in
  (st', Running (length (Hub.clients (hub st')))).

(** A call of `dataGenerators.broadcast` from `POST`, inside its `try`. *)
Definition publish (d : RealtimeData Payload) (st : State) : State * Response :=
  match Hub.broadcast JSON_stringify d (hub st) with
  | Hub.Returned h => (mkState (wss st) h (generators st), Broadcasted)
  | Hub.Threw h => (mkState (wss st) h (generators st), InternalError)
  end.

(** `POST`; [now] is `new Date().toISOString()`, and a body of [None] is
    one `request.json()` rejects or that cannot be destructured.  Reading a
    field of `data` throws when `data` is absent. *)
Definition POST (now : string) (body : option Body) (st : State) : State * Response :=
  match body with
  | None => (st, InternalError)
  | Some b =>
      if decide (body_type b = Some "custom_alert") then
        match body_data b with
        | None => (st, InternalError)
        | Some data =>
            publish (mkData "alert" now
                       (AlertData (or_else (alertType data) "custom")
                                  (or_else (severity data) "medium")
                                  (or_else (message data) "Custom alert")
                                  (location data)
                                  (default false (actionRequired data)))) st
        end
      else if decide (body_type b = Some "update_prediction") then
        match body_data b with
        | None => (st, InternalError)
        | Some data => publish (mkData "prediction" now (Forwarded (predictionData data))) st
        end
      else if decide (body_type b = Some "system_message") then
        match body_data b with
        | None => (st, InternalError)
        | Some data => publish (mkData "system" now (Forwarded (messageData data))) st
        end
      else (st, UnknownType)
  end.

(** Everything that can happen to the route.  Socket events reach the
    handlers only once the server exists.  [Tick h d] is the callback of
    interval [h] running and building envelope [d] ([None] when the alert
    generator draws no alert). *)
Inductive Event :=
  | Get
  | Post (now : string) (body : option Body)
  | Socket (e : @Hub.Event Payload)
  | Tick (h : nat) (d : option (RealtimeData Payload))
  | ServerClose
  | Signal.

Definition step (st : State) (e : Event) : State :=
  match e with
  | Get => (GET st).1
  | Post now body => (POST now body st).1
  | Socket (Hub.Publish _) => st
  | Socket e =>
      if wss st
      then mkState (wss st) (Hub.step JSON_stringify (hub st) e) (generators st)
      else st
  | Tick h d =>
      if decide (h ∈ (Generators.timers (generators st)).*1) then
        match d with
        | Some d =>
            mkState (wss st) (Hub.state_of (Hub.broadcast JSON_stringify d (hub st)))
                    (generators st)
        | None => st
        end
      else st
  | ServerClose =>
      if wss st && bool_decide (length (Hub.clients (hub st)) = 0)
      then mkState (wss st) (hub st) (Generators.stopGenerating (generators st))
      else st
  | Signal =>
      if wss st
      then mkState (wss st) (hub st) (Generators.stopGenerating (generators st))
      else st
  end.

Definition run_from (st : State) (tr : list Event) : State := foldl step st tr.
Definition run (tr : list Event) : State := run_from init tr.

(** What holds of the route in every run. *)
Definition inv (st : State) : Prop :=
  generators st = Generators.init
  ∧ Hub.wf (hub st)
  ∧ (wss st = false → hub st = Hub.init).

(** The message types `POST` knows. *)
Definition known (b : Body) : Prop :=
  body_type b = Some "custom_alert"
  ∨ body_type b = Some "update_prediction"
  ∨ body_type b = Some "system_message".

(** What one call of `broadcast` from `POST` amounts to. *)
Definition delivered (message : string) (st st' : State) : Prop :=
  ∀ c,
    (c ∈ Hub.clients (hub st) → Hub.writable (Hub.sockets (hub st) c) = true →
       Hub.sent (Hub.sockets (hub st') c)
       = Hub.sent (Hub.sockets (hub st) c) ++ [Hub.Data message])
    ∧ (c ∉ Hub.clients (hub st) ∨ Hub.readyState (Hub.sockets (hub st) c) ≠ OPEN →
       Hub.sent (Hub.sockets (hub st') c) = Hub.sent (Hub.sockets (hub st) c)).

End WithJson.

End Route.

(** ** A serializer and bodies for the route scenarios *)
Module RouteScenario.
Import Route.

(** JSON values are given by their text; a text of `circular` stands for
    a value `JSON.stringify` rejects. *)
Definition stringify (d : RealtimeData (@Payload string)) : option string :=
  match data d with
  | AlertData ty sev msg _ _ =>
      Some (type d +:+ " " +:+ ty +:+ " " +:+ sev +:+ " " +:+ msg)
  | Forwarded (Some v) =>
      if decide (v = "circular") then None else Some (type d +:+ " " +:+ v)
  | Forwarded None => Some (type d)
  end.

Definition storm_request : @Body string :=
  mkBody (Some "custom_alert")
         (Some (mkRequestData None (Some "high") (Some "Storm") None (Some true) None None)).

End RouteScenario.

(** ** The Socket.IO variant of the route: generators that only log *)
Module LoggingRoute.

Inductive Event :=
  | Get
  | Post
  | Tick (h : nat)
  | Signal.

(** `GET` runs `initializeDataGenerators()`: start unless running.  `POST`
    and the interval callbacks only call `broadcast`, which logs.
    SIGTERM and SIGINT stop the generators. *)
Definition initializeDataGenerators (g : Generators.State) : Generators.State :=
  if Generators.isRunning g then g else Generators.startGenerating g.

Definition step (g : Generators.State) (e : Event) : Generators.State :=
  match e with
  | Get => initializeDataGenerators g
  | Post => g
  | Tick _ => g
  | Signal => Generators.stopGenerating g
  end.

Definition run (tr : list Event) : Generators.State := foldl step Generators.init tr.

(** The generators right after `startGenerating` on a stopped instance
    whose next timer handle is [h]. *)
Definition started (h : nat) : Generators.State :=
  Generators.startGenerating (Generators.mkState ∅ [] h).

End LoggingRoute.

(** ** `RealtimeDataProcessor`: the per-key buffers *)
Module Processor.

Section WithKey.

Context {any : Type}.
(** The buffer key of an envelope: its type and the coordinates of its
    location (0 when there is none), joined by dashes. *)
Variable key : RealtimeData any → string.

Definition bufferSize : nat := 10.

(** `addData(data)`. *)
Definition addData (b : gmap string (list (RealtimeData any))) (d : RealtimeData any)
    : gmap string (list (RealtimeData any)) :=
  let typeBuffer := default [] (b !! key d) ++ [d] in
  <[key d := if decide (bufferSize < length typeBuffer) then tail typeBuffer else typeBuffer]> b.

(** `destroy()`, as far as the buffers go. *)
Definition destroy (b : gmap string (list (RealtimeData any)))
    : gmap string (list (RealtimeData any)) := ∅.

(** The last [n] elements of a list. *)
Definition last_n (n : nat) (l : list (RealtimeData any)) : list (RealtimeData any) :=
  drop (length l - n) l.

(** The buffers after a sequence of `addData` calls on a new processor. *)
Definition fed (ds : list (RealtimeData any)) : gmap string (list (RealtimeData any)) :=
  foldl addData ∅ ds.

End WithKey.

End Processor.

(** ** What can be read off the frames written *)
Module Observe.

(** The JSON texts among the frames the client wrote, in order. *)
Definition payloads (w : list Client.Frame) : list string :=
  omap (λ f, match f with Client.Payload json => Some json | _ => None end) w.

(** Whether a client event is a call of `send`. *)
Definition is_send {any : Type} (e : @Client.Event any) : bool :=
  match e with Client.CallSend _ => true | _ => false end.

(** The timestamps echoed in the heartbeat responses written to a hub
    socket, and the timestamps of the heartbeats a run received from a
    connection, both in order. *)
Definition heartbeat_responses (fs : list Hub.Frame) : list string :=
  omap (λ f, match f with Hub.HeartbeatResponse ts => Some ts | _ => None end) fs.

Definition heartbeats_from {any : Type} (c : Hub.WsId) (tr : list (@Hub.Event any))
    : list string :=
  omap (λ e, match e with
             | Hub.Message ws (Hub.Heartbeat ts) => if decide (ws = c) then Some ts else None
             | _ => None
             end) tr.

(** The events that can stop the hub from writing to [c]: its `close`, its
    `error`, and the transport leaving the state in which its socket is
    open and its `send` works. *)
Definition disturbs {any : Type} (c : Hub.WsId) (e : @Hub.Event any) : bool :=
  match e with
  | Hub.Close ws | Hub.Error ws => bool_decide (ws = c)
  | Hub.Transport ws rs throws =>
      bool_decide (ws = c) && negb (bool_decide (rs = OPEN) && negb throws)
  | _ => false
  end.

(** The number of connections a run of the hub accepted. *)
Definition connections {any : Type} (tr : list (@Hub.Event any)) : nat :=
  length (omap (λ e, match e with Hub.Connection => Some () | _ => None end) tr).

(** Whether a client event is the socket opening. *)
Definition is_opened {any : Type} (e : @Client.Event any) : bool :=
  match e with Client.Opened => true | _ => false end.

(** The pending timeouts of a run are all reconnections. *)
Definition only_reconnects {any : Type} (s : @Client.State any) : Prop :=
  Forall (λ t, t.2 = Client.ReconnectTask) (Client.timeouts s).

End Observe.

(** ** Facts about the `Set` operations *)
Section SetFacts.
Context {A : Type} `{EqDecision A}.
Implicit Types (x y : A) (s : list A).

Lemma Set_add_NoDup x s : NoDup s → NoDup (Set_add x s).
Proof.
  intros Hnd. unfold Set_add. case_decide as Hin; [done|].
  apply NoDup_app. split_and!; [done| |apply NoDup_singleton].
  intros y Hy ->%list_elem_of_singleton. done.
Qed.

Lemma Set_delete_NoDup x s : NoDup s → NoDup (Set_delete x s).
Proof. intros Hnd. by apply NoDup_filter. Qed.

Lemma elem_of_Set_add x y s : y ∈ Set_add x s ↔ y = x ∨ y ∈ s.
Proof.
  unfold Set_add. case_decide as Hin.
  - split; [by right|]. by intros [->|?].
  - rewrite elem_of_app, list_elem_of_singleton. tauto.
Qed.

Lemma elem_of_Set_delete x y s : y ∈ Set_delete x s ↔ y ≠ x ∧ y ∈ s.
Proof. unfold Set_delete. by rewrite list_elem_of_filter. Qed.

Lemma Set_add_idem x s : Set_add x (Set_add x s) = Set_add x s.
Proof.
  unfold Set_add at 1. rewrite decide_True; [done|].
  apply elem_of_Set_add. by left.
Qed.

Lemma filter_eq_absent x s : x ∉ s → filter (λ y, y = x) s = [].
Proof.
  induction s as [|y s IH]; intros Hx; [done|].
  apply not_elem_of_cons in Hx as [Hne Hx].
  rewrite filter_cons_False by congruence. by apply IH.
Qed.

(** An element of a duplicate-free list occurs in it once. *)
Lemma NoDup_once x s : NoDup s → x ∈ s → length (filter (λ y, y = x) s) = 1.
Proof.
  induction s as [|y s IH]; intros Hnd Hx.
  - by apply not_elem_of_nil in Hx.
  - apply NoDup_cons in Hnd as [Hy Hnd].
    destruct (decide (y = x)) as [->|Hne].
    + rewrite filter_cons_True by done. simpl. by rewrite filter_eq_absent.
    + rewrite filter_cons_False by done.
      apply elem_of_cons in Hx as [->|Hx]; [done|]. by apply IH.
Qed.

End SetFacts.

Module HubFacts.
Import Hub.

Section WithSerializer.
Context {any : Type}.
Variable JSON_stringify : RealtimeData any → option string.

Lemma send_to_sockets m st x c :
  sockets (send_to m st x) c =
    if decide (c = x) then
      (if writable (sockets st c) then push (Data m) (sockets st c) else sockets st c)
    else sockets st c.
Proof.
  unfold send_to, ws_send, writable.
  destruct (decide (c = x)) as [->|Hne].
  - destruct (decide (readyState (sockets st x) = OPEN)) as [Ho|Ho].
    + rewrite (bool_decide_eq_true_2 _ Ho).
      destruct (sendThrows (sockets st x)); simpl; [done|].
      by rewrite fn_lookup_insert.
    + by rewrite (bool_decide_eq_false_2 _ Ho).
  - destruct (decide (readyState (sockets st x) = OPEN)); [|done].
    destruct (sendThrows (sockets st x)); simpl; [done|].
    by rewrite fn_lookup_insert_ne.
Qed.

Lemma send_to_clients m st x :
  clients (send_to m st x) =
    if broken (sockets st x) then Set_delete x (clients st) else clients st.
Proof.
  unfold send_to, ws_send, broken.
  destruct (decide (readyState (sockets st x) = OPEN)) as [Ho|Ho].
  - rewrite (bool_decide_eq_true_2 _ Ho).
    by destruct (sendThrows (sockets st x)).
  - by rewrite (bool_decide_eq_false_2 _ Ho).
Qed.

Lemma push_readyState f s : readyState (push f s) = readyState s.
Proof. done. Qed.

Lemma push_sendThrows f s : sendThrows (push f s) = sendThrows s.
Proof. done. Qed.

Lemma send_to_readyState m st x c :
  readyState (sockets (send_to m st x) c) = readyState (sockets st c).
Proof.
  rewrite send_to_sockets.
  destruct (decide (c = x)); [|done].
  by destruct (writable (sockets st c)).
Qed.

Lemma send_to_sendThrows m st x c :
  sendThrows (sockets (send_to m st x) c) = sendThrows (sockets st c).
Proof.
  rewrite send_to_sockets.
  destruct (decide (c = x)); [|done].
  by destruct (writable (sockets st c)).
Qed.

Lemma send_to_writable m st x c :
  writable (sockets (send_to m st x) c) = writable (sockets st c).
Proof. unfold writable. by rewrite send_to_readyState, send_to_sendThrows. Qed.

Lemma send_to_broken m st x c :
  broken (sockets (send_to m st x) c) = broken (sockets st c).
Proof. unfold broken. by rewrite send_to_readyState, send_to_sendThrows. Qed.

(** The sockets after the loop of [broadcast] over [l]. *)
Lemma fanout_sockets m l : ∀ st c,
  NoDup l →
  sockets (foldl (send_to m) st l) c =
    if decide (c ∈ l) then
      (if writable (sockets st c) then push (Data m) (sockets st c) else sockets st c)
    else sockets st c.
Proof.
  induction l as [|x l IH]; intros st c Hnd; cbn [foldl].
  - case_decide as Hin; [|done]. by apply not_elem_of_nil in Hin.
  - apply NoDup_cons in Hnd as [Hx Hnd].
    rewrite IH by done. rewrite send_to_writable, send_to_sockets.
    destruct (decide (c = x)) as [->|Hne].
    + destruct (decide (x ∈ l)); [done|].
      destruct (decide (x ∈ x :: l)) as [|Hn]; [done|].
      exfalso. apply Hn, elem_of_cons. by left.
    + destruct (decide (c ∈ l)) as [Hin|Hin];
        destruct (decide (c ∈ x :: l)) as [Hin'|Hin']; try done.
      * exfalso. apply Hin', elem_of_cons. by right.
      * exfalso. apply elem_of_cons in Hin' as [?|?]; done.
Qed.

(** The `clients` set after the loop of [broadcast] over [l]. *)
Lemma fanout_clients m l : ∀ st c,
  c ∈ clients (foldl (send_to m) st l) ↔
  c ∈ clients st ∧ ¬ (c ∈ l ∧ broken (sockets st c) = true).
Proof.
  induction l as [|x l IH]; intros st c; simpl.
  - split; [intros H; split; [done|] | by intros [H _]].
    intros [H' _]. by apply not_elem_of_nil in H'.
  - rewrite IH, send_to_broken, send_to_clients.
    destruct (broken (sockets st x)) eqn:Hb.
    + unfold Set_delete. rewrite list_elem_of_filter.
      split.
      * intros [[Hne Hin] Hno]. split; [done|].
        intros [[->|Hl]%elem_of_cons Hbr]; [done|]. apply Hno; done.
      * intros [Hin Hno]. split; [split; [|done]|].
        -- intros ->. apply Hno. split; [apply elem_of_cons; by left|done].
        -- intros [Hl Hbr]. apply Hno. split; [apply elem_of_cons; by right|done].
    + split.
      * intros [Hin Hno]. split; [done|].
        intros [[->|Hl]%elem_of_cons Hbr]; [congruence|]. apply Hno; done.
      * intros [Hin Hno]. split; [done|].
        intros [Hl Hbr]. apply Hno. split; [apply elem_of_cons; by right|done].
Qed.

Lemma fanout_clients_NoDup m l : ∀ st,
  NoDup (clients st) → NoDup (clients (foldl (send_to m) st l)).
Proof.
  induction l as [|x l IH]; intros st Hnd; simpl; [done|].
  apply IH. rewrite send_to_clients.
  destruct (broken (sockets st x)); [|done].
  by apply NoDup_filter.
Qed.

Lemma fanout_nextId m l : ∀ st, nextId (foldl (send_to m) st l) = nextId st.
Proof.
  induction l as [|x l IH]; intros st; simpl; [done|].
  rewrite IH. unfold send_to.
  destruct (decide _); [|done]. by destruct (ws_send _ _).
Qed.

Lemma broadcast_Returned d message st :
  JSON_stringify d = Some message →
  broadcast JSON_stringify d st = Returned (foldl (send_to message) st (clients st)).
Proof. intros H. unfold broadcast. by rewrite H. Qed.

Lemma broadcast_Threw d st :
  JSON_stringify d = None → broadcast JSON_stringify d st = Threw st.
Proof. intros H. unfold broadcast. by rewrite H. Qed.

Lemma wf_init : wf init.
Proof.
  split_and!; simpl.
  - apply NoDup_nil_2.
  - intros c Hc. by apply not_elem_of_nil in Hc.
  - done.
Qed.

Lemma wf_fanout m st : wf st → wf (foldl (send_to m) st (clients st)).
Proof.
  intros (Hnd & Hlt & Hdr). split_and!.
  - by apply fanout_clients_NoDup.
  - intros c [Hc _]%fanout_clients. rewrite fanout_nextId. by apply Hlt.
  - intros c. rewrite fanout_sockets by done.
    specialize (Hdr c).
    case_decide; [|done]. destruct (writable (sockets st c)); [|done].
    simpl. rewrite length_app. simpl. lia.
Qed.

Lemma wf_step st e : wf st → wf (step JSON_stringify st e).
Proof.
  intros (Hnd & Hlt & Hdr).
  destruct e as [|ws m|ws|ws|d|ws rs th|ws]; simpl.
  - split_and!; simpl.
    + by apply Set_add_NoDup.
    + intros c [->|Hc]%elem_of_Set_add; [lia|]. apply Hlt in Hc. lia.
    + intros c. destruct (decide (nextId st = c)) as [<-|Hne].
      * rewrite fn_lookup_insert. simpl. lia.
      * by rewrite fn_lookup_insert_ne.
  - destruct m as [|ts|types|types|]; simpl; try (split_and!; done).
    unfold ws_send.
    destruct (sendThrows (sockets st ws)); [split_and!; done|].
    case_decide; split_and!; simpl; try done.
    + intros c. destruct (decide (ws = c)) as [<-|Hne].
      * rewrite fn_lookup_insert. simpl. rewrite length_app. specialize (Hdr ws). simpl. lia.
      * by rewrite fn_lookup_insert_ne.
    + intros c. destruct (decide (ws = c)) as [<-|Hne].
      * by rewrite fn_lookup_insert.
      * by rewrite fn_lookup_insert_ne.
  - split_and!; simpl; [by apply Set_delete_NoDup| |done].
    intros c [_ Hc]%elem_of_Set_delete. by apply Hlt.
  - split_and!; simpl; [by apply Set_delete_NoDup| |done].
    intros c [_ Hc]%elem_of_Set_delete. by apply Hlt.
  - unfold broadcast. destruct (JSON_stringify d) as [m|]; simpl; [|done].
    by apply wf_fanout.
  - split_and!; simpl; try done.
    intros c. destruct (decide (ws = c)) as [<-|Hne].
    + rewrite fn_lookup_insert. simpl. apply Hdr.
    + by rewrite fn_lookup_insert_ne.
  - unfold peer_reads. case_decide as Hd; [|done].
    split_and!; simpl; try done.
    intros c. destruct (decide (ws = c)) as [<-|Hne].
    + rewrite fn_lookup_insert. simpl. lia.
    + by rewrite fn_lookup_insert_ne.
Qed.

Lemma wf_run_from tr : ∀ st, wf st → wf (run_from JSON_stringify st tr).
Proof.
  induction tr as [|e tr IH]; intros st Hwf; simpl; [done|].
  apply IH. by apply wf_step.
Qed.

Lemma wf_run tr : wf (run JSON_stringify tr).
Proof. apply wf_run_from, wf_init. Qed.

Lemma run_snoc tr e :
  run JSON_stringify (tr ++ [e]) = step JSON_stringify (run JSON_stringify tr) e.
Proof. unfold run, run_from. apply foldl_snoc. Qed.

Lemma writable_not_broken s : writable s = true → broken s = false.
Proof.
  unfold writable, broken. intros [_ H]%andb_true_iff.
  destruct (sendThrows s); [done|]. by rewrite andb_false_r.
Qed.

Lemma broken_not_writable s : broken s = true → writable s = false.
Proof.
  unfold writable, broken. intros [_ ->]%andb_true_iff. by rewrite andb_false_r.
Qed.

Lemma not_open_not_writable s : readyState s ≠ OPEN → writable s = false.
Proof. intros H. unfold writable. by rewrite (bool_decide_eq_false_2 _ H). Qed.

(** A publish writes nothing to a socket outside the client set. *)
Lemma broadcast_not_member d st c :
  wf st → c ∉ clients st →
  sockets (state_of (broadcast JSON_stringify d st)) c = sockets st c.
Proof.
  intros (Hnd & _) Hc. unfold broadcast.
  destruct (JSON_stringify d) as [m|]; simpl; [|done].
  rewrite fanout_sockets by done. by rewrite decide_False.
Qed.

Lemma wf_broadcast d st : wf st → wf (state_of (broadcast JSON_stringify d st)).
Proof. intros H. apply (wf_step st (Publish d) H). Qed.


(** A connection stays in the client set, with a working `send`, through
    every event that does not harm it. *)
Lemma stays_connected c tr : ∀ st,
  wf st → c ∈ clients st → sendThrows (sockets st c) = false →
  Forall (λ e, harms c e = false) tr →
  c ∈ clients (run_from JSON_stringify st tr)
  ∧ sendThrows (sockets (run_from JSON_stringify st tr) c) = false.
Proof.
  induction tr as [|e tr IH]; intros st Hwf Hc Hth Hall; simpl; [done|].
  apply Forall_cons in Hall as [He Hall].
  assert (Hlt : c < nextId st) by (by apply Hwf).
  apply IH; [by apply wf_step| | |done].
  - destruct e as [|ws m|ws|ws|d|ws rs th|ws]; simpl in *; try done.
    + apply elem_of_Set_add. by right.
    + by destruct m; simpl; try done; destruct (ws_send _ _).
    + apply elem_of_Set_delete. split; [|done].
      intros ->. by rewrite bool_decide_eq_true_2 in He.
    + apply elem_of_Set_delete. split; [|done].
      intros ->. by rewrite bool_decide_eq_true_2 in He.
    + unfold broadcast. destruct (JSON_stringify d); simpl; [|done].
      apply fanout_clients. split; [done|].
      intros [_ Hb]. unfold broken in Hb. rewrite Hth in Hb.
      by rewrite andb_false_r in Hb.
    + unfold peer_reads. by case_decide.
  - destruct e as [|ws m|ws|ws|d|ws rs th|ws]; simpl in *; try done.
    + rewrite fn_lookup_insert_ne; [done|lia].
    + destruct m; simpl; try done. unfold ws_send.
      destruct (sendThrows (sockets st ws)) eqn:Hs; simpl; [done|].
      case_decide; simpl.
      * destruct (decide (ws = c)) as [->|Hne].
        -- by rewrite fn_lookup_insert.
        -- by rewrite fn_lookup_insert_ne.
      * destruct (decide (ws = c)) as [->|Hne].
        -- by rewrite fn_lookup_insert.
        -- by rewrite fn_lookup_insert_ne.
    + unfold broadcast. destruct (JSON_stringify d); simpl; [|done].
      destruct Hwf as (Hnd & _).
      rewrite fanout_sockets by done.
      case_decide; [|done]. by destruct (writable (sockets st c)).
    + destruct (decide (ws = c)) as [->|Hne].
      * rewrite fn_lookup_insert. simpl.
        rewrite bool_decide_eq_true_2 in He by done. done.
      * by rewrite fn_lookup_insert_ne.
    + unfold peer_reads. case_decide; [|done]. simpl.
      destruct (decide (ws = c)) as [->|Hne].
      * by rewrite fn_lookup_insert.
      * by rewrite fn_lookup_insert_ne.
Qed.

(** [n] publishes in a row to a client that is open, not failing and not
    reading: each one is appended to its buffer. *)
Lemma publish_repeat d message c n : ∀ st,
  wf st → JSON_stringify d = Some message →
  c ∈ clients st → writable (sockets st c) = true →
  let st' := run_from JSON_stringify st (replicate n (Publish d)) in
  wf st' ∧ c ∈ clients st' ∧ writable (sockets st' c) = true
  ∧ sent (sockets st' c) = sent (sockets st c) ++ replicate n (Data message)
  ∧ drained (sockets st' c) = drained (sockets st c).
Proof.
  induction n as [|n IH]; intros st Hwf Hd Hc Hw; simpl.
  - by rewrite app_nil_r.
  - rewrite (broadcast_Returned _ _ _ Hd). simpl.
    set (st1 := foldl (send_to message) st (clients st)).
    assert (Hs1 : sockets st1 c = push (Data message) (sockets st c)).
    { unfold st1. destruct Hwf as (Hnd & _).
      rewrite fanout_sockets by done. rewrite decide_True by done. by rewrite Hw. }
    assert (Hw1 : writable (sockets st1 c) = true) by (by rewrite Hs1).
    assert (Hc1 : c ∈ clients st1).
    { apply fanout_clients. split; [done|]. intros [_ Hb].
      by rewrite (writable_not_broken _ Hw) in Hb. }
    destruct (IH st1 (wf_fanout _ _ Hwf) Hd Hc1 Hw1) as (? & ? & ? & Hsent & Hdr).
    split_and!; try done.
    + rewrite Hsent, Hs1. simpl. by rewrite <- app_assoc.
    + by rewrite Hdr, Hs1.
Qed.

(** The data frames written to a socket are, in order, among the strings
    published. *)
Lemma data_frames_sublist tr c :
  data_frames (sent (sockets (run JSON_stringify tr) c))
    `sublist_of` published JSON_stringify tr.
Proof.
  induction tr as [|e tr IH] using rev_ind; [done|].
  rewrite run_snoc. unfold published. rewrite omap_app. simpl.
  fold (published JSON_stringify tr).
  pose proof (wf_run tr) as (Hnd & _).
  set (st := run JSON_stringify tr) in *.
  destruct e as [|ws m|ws|ws|d|ws rs th|ws]; simpl;
    try (rewrite app_nil_r; exact IH).
  - rewrite app_nil_r. destruct (decide (nextId st = c)) as [<-|Hne].
    + rewrite fn_lookup_insert. simpl. apply sublist_nil_l.
    + by rewrite fn_lookup_insert_ne.
  - rewrite app_nil_r. destruct m; simpl; try done.
    unfold ws_send. destruct (sendThrows (sockets st ws)); simpl; [done|].
    case_decide; simpl.
    + destruct (decide (ws = c)) as [->|Hne].
      * rewrite fn_lookup_insert. simpl. unfold data_frames.
        rewrite omap_app. simpl. by rewrite app_nil_r.
      * by rewrite fn_lookup_insert_ne.
    + destruct (decide (ws = c)) as [->|Hne].
      * by rewrite fn_lookup_insert.
      * by rewrite fn_lookup_insert_ne.
  - unfold broadcast. destruct (JSON_stringify d) as [m|]; simpl.
    + rewrite fanout_sockets by done.
      case_decide; [|by apply sublist_inserts_r].
      destruct (writable (sockets st c)); [|by apply sublist_inserts_r].
      simpl. unfold data_frames. rewrite omap_app. simpl.
      by apply sublist_app.
    + by rewrite app_nil_r.
  - rewrite app_nil_r. destruct (decide (ws = c)) as [->|Hne].
    + by rewrite fn_lookup_insert.
    + by rewrite fn_lookup_insert_ne.
  - rewrite app_nil_r. unfold peer_reads. case_decide; [|done]. simpl.
    destruct (decide (ws = c)) as [->|Hne].
    + by rewrite fn_lookup_insert.
    + by rewrite fn_lookup_insert_ne.
Qed.

Lemma writable_inv s : writable s = true → readyState s = OPEN ∧ sendThrows s = false.
Proof.
  unfold writable. intros [Ho Ht]%andb_true_iff. split.
  - by apply bool_decide_eq_true in Ho.
  - by destruct (sendThrows s).
Qed.

Lemma published_cons e tr :
  published JSON_stringify (e :: tr)
  = published JSON_stringify [e] ++ published JSON_stringify tr.
Proof. unfold published. by rewrite <- omap_app. Qed.

(** The frames one fan-out adds to each socket. *)
Lemma broadcast_sent d message st c :
  wf st → JSON_stringify d = Some message →
  sent (sockets (state_of (broadcast JSON_stringify d st)) c)
  = sent (sockets st c)
    ++ (if bool_decide (c ∈ clients st) && writable (sockets st c)
        then [Data message] else []).
Proof.
  intros (Hnd & _) Hd. rewrite (broadcast_Returned _ _ _ Hd). simpl.
  rewrite fanout_sockets by done.
  destruct (decide (c ∈ clients st)) as [Hc|Hc].
  - rewrite (bool_decide_eq_true_2 _ Hc). simpl.
    destruct (writable (sockets st c)); simpl; [done|by rewrite app_nil_r].
  - rewrite (bool_decide_eq_false_2 _ Hc). simpl. by rewrite app_nil_r.
Qed.

(** One event that does not disturb a connected, working client: the
    client stays so, and what is written to it is what the event
    published, after any heartbeat response. *)
Lemma undisturbed_step st e c :
  wf st → c ∈ clients st → writable (sockets st c) = true →
  Observe.disturbs c e = false →
  c ∈ clients (step JSON_stringify st e)
  ∧ writable (sockets (step JSON_stringify st e) c) = true
  ∧ ∃ fs, sent (sockets (step JSON_stringify st e) c) = sent (sockets st c) ++ fs
          ∧ data_frames fs = published JSON_stringify [e].
Proof.
  intros Hwf Hc Hw He. pose proof Hwf as (Hnd & Hlt & _).
  destruct (writable_inv _ Hw) as [Ho Ht].
  destruct e as [|ws m|ws|ws|d|ws rs th|ws]; simpl in He; cbn [step].
  - assert (Hne : nextId st ≠ c) by (apply Hlt in Hc; lia).
    unfold on_connection; simpl. rewrite fn_lookup_insert_ne by done.
    split_and!; [apply elem_of_Set_add; by right|done|].
    exists []. by rewrite app_nil_r.
  - destruct m as [|ts|types|types|]; simpl;
      try (split_and!; [done|done|exists []; by rewrite app_nil_r]).
    destruct (decide (ws = c)) as [->|Hne].
    + unfold ws_send. rewrite Ht, decide_True by done. simpl.
      rewrite fn_lookup_insert. split_and!; [done|done|].
      by exists [HeartbeatResponse ts].
    + destruct (ws_send _ _); simpl; [rewrite fn_lookup_insert_ne by done|];
        (split_and!; [done|done|exists []; by rewrite app_nil_r]).
  - apply bool_decide_eq_false in He. unfold on_close; simpl.
    split_and!; [apply elem_of_Set_delete; by split|done|].
    exists []. by rewrite app_nil_r.
  - apply bool_decide_eq_false in He. unfold on_error; simpl.
    split_and!; [apply elem_of_Set_delete; by split|done|].
    exists []. by rewrite app_nil_r.
  - unfold published. simpl.
    destruct (JSON_stringify d) as [m|] eqn:Hd.
    + rewrite (broadcast_Returned _ _ _ Hd). simpl.
      rewrite fanout_sockets by done. rewrite decide_True by done. rewrite Hw.
      split_and!.
      * apply fanout_clients. split; [done|]. intros [_ Hb].
        by rewrite (writable_not_broken _ Hw) in Hb.
      * done.
      * by exists [Data m].
    + rewrite (broadcast_Threw _ _ Hd). simpl.
      split_and!; [done|done|exists []; by rewrite app_nil_r].
  - unfold transport; simpl. destruct (decide (ws = c)) as [->|Hne].
    + rewrite bool_decide_eq_true_2 in He by done. simpl in He.
      apply negb_false_iff, andb_true_iff in He as [Hrs Hth].
      apply bool_decide_eq_true in Hrs. apply negb_true_iff in Hth. subst rs th.
      rewrite fn_lookup_insert. simpl.
      split_and!; [done|done|exists []; by rewrite app_nil_r].
    + rewrite fn_lookup_insert_ne by done.
      split_and!; [done|done|exists []; by rewrite app_nil_r].
  - unfold peer_reads. case_decide; simpl.
    + destruct (decide (ws = c)) as [->|Hne].
      * rewrite fn_lookup_insert. simpl.
        split_and!; [done| |exists []; by rewrite app_nil_r].
        unfold writable. simpl. by rewrite Ho, Ht.
      * rewrite fn_lookup_insert_ne by done.
        split_and!; [done|done|exists []; by rewrite app_nil_r].
    + split_and!; [done|done|exists []; by rewrite app_nil_r].
Qed.

(** The same through a whole stretch of a run. *)
Lemma undisturbed_run c seg : ∀ st,
  wf st → c ∈ clients st → writable (sockets st c) = true →
  Forall (λ e, Observe.disturbs c e = false) seg →
  c ∈ clients (run_from JSON_stringify st seg)
  ∧ writable (sockets (run_from JSON_stringify st seg) c) = true
  ∧ ∃ fs, sent (sockets (run_from JSON_stringify st seg) c) = sent (sockets st c) ++ fs
          ∧ data_frames fs = published JSON_stringify seg.
Proof.
  induction seg as [|e seg IH]; intros st Hwf Hc Hw Hall.
  - split_and!; [done|done|]. exists []. by rewrite app_nil_r.
  - apply Forall_cons in Hall as [He Hall].
    destruct (undisturbed_step st e c Hwf Hc Hw He) as (Hc1 & Hw1 & fs1 & Hs1 & Hf1).
    destruct (IH _ (wf_step st e Hwf) Hc1 Hw1 Hall) as (Hc2 & Hw2 & fs2 & Hs2 & Hf2).
    split_and!; [done|done|].
    exists (fs1 ++ fs2). split.
    + change (run_from JSON_stringify st (e :: seg))
        with (run_from JSON_stringify (step JSON_stringify st e) seg).
      by rewrite Hs2, Hs1, app_assoc.
    + rewrite published_cons. unfold data_frames in *.
      by rewrite omap_app, Hf1, Hf2.
Qed.

(** C1 (amended).  A publish reaches the client set, not a topic's
    subscribers: in every run, a serializable envelope is written exactly
    once to each connection that is in `clients`, open and able to send,
    and is not written to a connection that is outside `clients` or not
    open; no message from a client (a subscribe or unsubscribe request
    included) changes `clients`. *)
Theorem fan_out_reaches_the_client_set tr d message c :
  JSON_stringify d = Some message →
  let st := run JSON_stringify tr in
  ∃ st', broadcast JSON_stringify d st = Returned st'
    ∧ (c ∈ clients st → writable (sockets st c) = true →
         sent (sockets st' c) = sent (sockets st c) ++ [Data message])
    ∧ (c ∉ clients st ∨ readyState (sockets st c) ≠ OPEN →
         sent (sockets st' c) = sent (sockets st c))
    ∧ (∀ ws m, clients (on_message ws m st) = clients st).
Proof.
  intros Hd st. pose proof (wf_run tr) as (Hnd & _). fold st in Hnd.
  eexists. split; [by apply broadcast_Returned|].
  split_and!.
  - intros Hc Hw. rewrite fanout_sockets by done.
    rewrite decide_True by done. by rewrite Hw.
  - intros Hno. rewrite fanout_sockets by done.
    case_decide as Hc; [|done].
    destruct Hno as [Hno|Hno]; [done|].
    by rewrite (not_open_not_writable _ Hno).
  - intros ws m. by destruct m; simpl; try done; destruct (ws_send _ _).
Qed.


(** C3.  When `send` throws for one client during a fan-out, `broadcast`
    still returns to the publisher, the failing client is taken out of
    `clients` and gets nothing from this or any later fan-out, and every
    other client that is open and able to send gets its copy and stays. *)
Theorem failure_is_isolated tr d message c :
  JSON_stringify d = Some message →
  let st := run JSON_stringify tr in
  c ∈ clients st → broken (sockets st c) = true →
  ∃ st', broadcast JSON_stringify d st = Returned st'
    ∧ (c ∉ clients st')
    ∧ sent (sockets st' c) = sent (sockets st c)
    ∧ (∀ d', sent (sockets (state_of (broadcast JSON_stringify d' st')) c)
             = sent (sockets st c))
    ∧ (∀ c', c' ≠ c → c' ∈ clients st → writable (sockets st c') = true →
         c' ∈ clients st'
         ∧ sent (sockets st' c') = sent (sockets st c') ++ [Data message]).
Proof.
  intros Hd st Hc Hb.
  pose proof (wf_run tr) as Hwf. fold st in Hwf.
  pose proof Hwf as (Hnd & _).
  eexists. split; [by apply broadcast_Returned|].
  set (st' := foldl (send_to message) st (clients st)).
  assert (Hgone : c ∉ clients st').
  { intros [_ Hno]%fanout_clients. by apply Hno. }
  assert (Hsame : sockets st' c = sockets st c).
  { unfold st'. rewrite fanout_sockets by done.
    rewrite decide_True by done. by rewrite (broken_not_writable _ Hb). }
  split_and!.
  - done.
  - by rewrite Hsame.
  - intros d'. rewrite broadcast_not_member; [by rewrite Hsame| |done].
    by apply wf_fanout.
  - intros c' Hne Hc' Hw. split.
    + apply fanout_clients. split; [done|]. intros [_ Hb'].
      by rewrite (writable_not_broken _ Hw) in Hb'.
    + unfold st'. rewrite fanout_sockets by done.
      rewrite decide_True by done. by rewrite Hw.
Qed.

(** C4 (amended).  The hub has no queue limit: a client that is open and
    able to send stays in `clients` whatever its buffer holds, and [n]
    publishes in a row that it does not read add [n] frames to its
    buffer.  A client leaves `clients` in a fan-out only if its `send`
    throws. *)
Theorem buffering_has_no_bound tr d message c n :
  JSON_stringify d = Some message →
  let st := run JSON_stringify tr in
  c ∈ clients st → writable (sockets st c) = true →
  let st' := run_from JSON_stringify st (replicate n (Publish d)) in
  c ∈ clients st'
  ∧ bufferedFrames (sockets st' c) = bufferedFrames (sockets st c) + n
  ∧ (∀ c', c' ∈ clients st → broken (sockets st c') = false →
       c' ∈ clients (state_of (broadcast JSON_stringify d st))).
Proof.
  intros Hd st Hc Hw st'.
  pose proof (wf_run tr) as Hwf. fold st in Hwf.
  destruct (publish_repeat d message c n st Hwf Hd Hc Hw) as (_ & Hc' & _ & Hsent & Hdr).
  fold st' in Hc', Hsent, Hdr.
  split_and!.
  - done.
  - unfold bufferedFrames. rewrite Hsent, Hdr, length_app, length_replicate.
    destruct Hwf as (_ & _ & Hle). specialize (Hle c). lia.
  - intros c' Hc1 Hb. rewrite (broadcast_Returned _ _ _ Hd). simpl.
    apply fanout_clients. split; [done|]. intros [_ Hb']. congruence.
Qed.

Lemma fanout_none_open m l : ∀ st,
  (∀ x, x ∈ l → readyState (sockets st x) ≠ OPEN) →
  foldl (send_to m) st l = st.
Proof.
  induction l as [|x l IH]; intros st Hall; cbn [foldl]; [done|].
  assert (Hx : send_to m st x = st).
  { unfold send_to. rewrite decide_False; [done|]. apply Hall, elem_of_cons. by left. }
  rewrite Hx. apply IH. intros y Hy. apply Hall, elem_of_cons. by right.
Qed.

(** C9 (amended).  `broadcast` never throws for want of recipients: in
    every run, a serializable envelope makes it return, having written
    the text once to each connection in `clients` that is open and able
    to send, whoever subscribed to what, and to nobody else; it changes
    nothing when no connection in `clients` is open, in particular when
    `clients` is empty.  An envelope that `JSON.stringify` rejects makes
    it throw with the hub untouched, and it throws in no other case, so a
    throw never follows a write. *)
Theorem publish_errors tr d :
  let st := run JSON_stringify tr in
  (∀ message, JSON_stringify d = Some message →
     ∃ st', broadcast JSON_stringify d st = Returned st'
       ∧ (∀ c, sent (sockets st' c)
               = sent (sockets st c)
                 ++ (if bool_decide (c ∈ clients st) && writable (sockets st c)
                     then [Data message] else []))
       ∧ ((∀ c, c ∈ clients st → readyState (sockets st c) ≠ OPEN) → st' = st))
  ∧ (∀ st0 message, clients st0 = [] → JSON_stringify d = Some message →
       broadcast JSON_stringify d st0 = Returned st0)
  ∧ (∀ st0, JSON_stringify d = None → broadcast JSON_stringify d st0 = Threw st0)
  ∧ (∀ st0 st', broadcast JSON_stringify d st0 = Threw st' →
       JSON_stringify d = None ∧ st' = st0).
Proof.
  intros st. split_and!.
  - intros message Hd. eexists. split; [by apply broadcast_Returned|]. split.
    + intros c. pose proof (broadcast_sent d message st c (wf_run tr) Hd) as Hs.
      by rewrite (broadcast_Returned _ _ _ Hd) in Hs.
    + apply fanout_none_open.
  - intros st0 message Hc Hd. rewrite (broadcast_Returned _ _ _ Hd). by rewrite Hc.
  - intros st0. apply broadcast_Threw.
  - intros st0 st'. unfold broadcast.
    destruct (JSON_stringify d); [done|]. by intros [= ->].
Qed.

End WithSerializer.

(** Scenario A on the code: connection 0 subscribes to `alert`, connection
    1 does not; a publish to `alert` is written to both. *)
Example scenario_subscribed_and_not :
  let st := run Scenario.stringify
              [Connection; Connection; Message 0 (Subscribe ["alert"]);
               Publish Scenario.storm] in
  data_frames (sent (sockets st 0)) = ["alert 2024-06-01T12:00:00.000Z weather_warning high Storm"]
  ∧ data_frames (sent (sockets st 1)) = ["alert 2024-06-01T12:00:00.000Z weather_warning high Storm"].
Proof. split; reflexivity. Qed.

(** Scenario D on the code: `send` throws for connection 0 while
    connection 1 is also connected. *)
Example scenario_write_failure :
  let st := run Scenario.stringify
              [Connection; Connection; Transport 0 OPEN true; Publish Scenario.storm] in
  clients st = [1]
  ∧ sent (sockets st 0) = [Welcome]
  ∧ length (sent (sockets st 1)) = 2
  ∧ console st = [LogConnected; LogConnected; LogSendError 0].
Proof. repeat split; reflexivity. Qed.

(** C1, refuted as stated: a connection that has sent no subscribe request
    is written to by a publish to `alert`. *)
Lemma fan_out_ignores_topics : ¬ Spec.fan_out_by_topic Scenario.stringify.
Proof.
  intros H.
  destruct (H [Connection] Scenario.storm _ 0 eq_refl) as [_ Hnone].
  specialize (Hnone eq_refl). vm_compute in Hnone. discriminate.
Qed.

Lemma fan_out_reaches_the_client_set_witness :
  ∃ st', broadcast Scenario.stringify Scenario.storm
           (run Scenario.stringify [Connection; Connection; Close 1]) = Returned st'
    ∧ length (sent (sockets st' 0)) = 2
    ∧ length (sent (sockets st' 1)) = 1.
Proof.
  destruct (fan_out_reaches_the_client_set Scenario.stringify
              [Connection; Connection; Close 1] Scenario.storm _ 0 eq_refl)
    as (st' & Hb & Hin & _).
  exists st'. split; [exact Hb|].
  vm_compute in Hb. injection Hb as <-. split; reflexivity.
Defined.



Lemma failure_is_isolated_witness :
  ∃ st', broadcast Scenario.stringify Scenario.storm
           (run Scenario.stringify [Connection; Connection; Transport 0 OPEN true])
         = Returned st'
    ∧ 0 ∉ clients st'.
Proof.
  destruct (failure_is_isolated Scenario.stringify
              [Connection; Connection; Transport 0 OPEN true] Scenario.storm _ 0 eq_refl)
    as (st' & Hb & Hgone & _).
  - vm_compute. constructor.
  - reflexivity.
  - exists st'. split; [exact Hb|exact Hgone].
Defined.

(** C4, refuted as stated: whatever the limit, one more publish than the
    limit leaves a connected client with a buffer above it. *)
Lemma no_backpressure_limit : ¬ ∃ limit, Spec.backpressure_policy Scenario.stringify limit.
Proof.
  intros [limit H].
  specialize (H (Connection :: replicate (S limit) (Publish Scenario.storm)) 0).
  set (st := run Scenario.stringify [Connection]).
  assert (Hwf : wf st) by apply wf_run.
  assert (Hc : 0 ∈ clients st) by (vm_compute; constructor).
  destruct (publish_repeat Scenario.stringify Scenario.storm _ 0 (S limit) st
              Hwf eq_refl Hc eq_refl) as (_ & Hin & _ & Hsent & Hdr).
  change (run Scenario.stringify (Connection :: replicate (S limit) (Publish Scenario.storm)))
    with (run_from Scenario.stringify st (replicate (S limit) (Publish Scenario.storm))) in H.
  apply H; [|exact Hin].
  unfold bufferedFrames. rewrite Hsent, Hdr, length_app, length_replicate.
  simpl. lia.
Qed.

Lemma buffering_has_no_bound_witness :
  bufferedFrames
    (sockets (run_from Scenario.stringify (run Scenario.stringify [Connection])
                (replicate 3 (Publish Scenario.storm))) 0) = 4.
Proof.
  refine (eq_trans (proj1 (proj2 (buffering_has_no_bound Scenario.stringify
            [Connection] Scenario.storm _ 0 3 eq_refl _ eq_refl))) _).
  - vm_compute. constructor.
  - reflexivity.
Defined.

(** C9, refuted as stated: nobody subscribed to `vessel`, and a publish
    to `vessel` is delivered to the connected client all the same. *)
Lemma publish_reaches_the_unsubscribed :
  ¬ Spec.publish_without_subscribers Scenario.stringify.
Proof.
  intros H.
  destruct (H [Connection] Scenario.position _ eq_refl) as (st' & Hb & Hnone).
  { intros c. reflexivity. }
  vm_compute in Hb. injection Hb as <-.
  specialize (Hnone 0). vm_compute in Hnone. discriminate.
Qed.

Lemma publish_errors_witness :
  (∃ st', broadcast Scenario.stringify Scenario.position
            (run Scenario.stringify [Connection]) = Returned st'
     ∧ length (sent (sockets st' 0)) = 2)
  ∧ broadcast Scenario.stringify Scenario.cyclic init = Threw init.
Proof.
  split.
  - destruct (proj1 (publish_errors Scenario.stringify [Connection] Scenario.position)
                _ eq_refl) as (st' & Hb & Hs & _).
    exists st'. split; [exact Hb|]. rewrite (Hs 0). reflexivity.
  - exact (proj1 (proj2 (proj2 (publish_errors Scenario.stringify [] Scenario.cyclic)))
             init eq_refl).
Defined.

End HubFacts.

Module ClientFacts.
Import Client.

#[local] Arguments Z.le : simpl never.
#[local] Arguments Z.lt : simpl never.

Lemma attempts_since_open_snoc l e :
  attempts_since_open (l ++ [e]) =
    match e with
    | LogOpen => []
    | LogReconnectIn delay attempt => attempts_since_open l ++ [(delay, attempt)]
    | _ => attempts_since_open l
    end.
Proof. unfold attempts_since_open. rewrite foldl_snoc. by destruct e. Qed.

Lemma backoff_schedule_0 : backoff_schedule 0 = [].
Proof. done. Qed.

Lemma backoff_schedule_succ k :
  (0 ≤ k)%Z →
  backoff_schedule (k + 1) = backoff_schedule k ++ [((1000 * 2 ^ k)%Z, (k + 1)%Z)].
Proof.
  intros Hk. unfold backoff_schedule.
  rewrite seqZ_app by lia. rewrite fmap_app. f_equal.
  rewrite seqZ_cons by lia. rewrite seqZ_nil by lia.
  cbn [fmap list_fmap].
  replace (1 + k - 1)%Z with k by lia.
  by replace (1 + k)%Z with (k + 1)%Z by lia.
Qed.

Section WithPayload.

Context {any : Type}.
Variable effect :
  Callback → RealtimeData any → gmap string (list Callback) → gmap string (list Callback).
Variable throws : Callback → RealtimeData any → bool.

Lemma dispatch_fields d l : ∀ s,
  same_but_dispatch s (foldl (invoke effect throws d) s l).
Proof.
  induction l as [|cb l IH]; intros s; simpl.
  - by repeat split.
  - destruct (IH (invoke effect throws d s cb)) as (H1 & H2 & H3 & H4 & H5 & H6 & H7 & H8 & H9).
    unfold same_but_dispatch.
    rewrite H1, H2, H3, H4, H5, H6, H7, H8, H9.
    unfold invoke. destruct (throws cb d); simpl; try done.
    by rewrite attempts_since_open_snoc.
Qed.

Lemma dispatch_calls d l : ∀ s,
  calls (foldl (invoke effect throws d) s l) = calls s ++ ((λ cb, (cb, d)) <$> l).
Proof.
  induction l as [|cb l IH]; intros s; simpl.
  - by rewrite app_nil_r.
  - rewrite IH. unfold invoke. destruct (throws cb d); simpl; by rewrite <- app_assoc.
Qed.

Lemma inv_fields : inv (@fields any).
Proof. unfold inv; simpl. split_and!; done. Qed.

Lemma inv_handleMessage d s : inv s → inv (handleMessage effect throws d s).
Proof.
  intros (Hq & Hm & Hmax & Hdel & Hrange & Hlog & Hiv).
  unfold handleMessage. rewrite Hq.
  destruct (dispatch_fields d
              (default [] (listeners s !! type d) ++ default [] (listeners s !! "*")) s)
    as (H1 & H2 & H3 & H4 & H5 & H6 & H7 & H8 & H9).
  unfold inv. by rewrite H1, H2, H3, H4, H5, H6, H7.
Qed.

Lemma inv_attemptReconnect (s : @State any) : inv s → inv (attemptReconnect s).
Proof.
  intros (Hq & Hm & Hmax & Hdel & Hrange & Hlog & Hiv).
  unfold attemptReconnect. case_decide as Hle.
  - unfold inv; simpl. rewrite attempts_since_open_snoc. done.
  - unfold inv; simpl. rewrite attempts_since_open_snoc.
    rewrite Hmax in Hle.
    split_and!; try done; try lia.
    rewrite Hlog, Hdel, backoff_schedule_succ by lia.
    by replace (reconnectAttempts s + 1 - 1)%Z with (reconnectAttempts s) by lia.
Qed.

Lemma inv_processNext s : inv s → inv (processNext effect throws s).
Proof.
  intros (Hq & Hm & Hmax & Hdel & Hrange & Hlog & Hiv).
  unfold processNext. rewrite Hm. done.
Qed.

Lemma processMessageQueue_idle s : inv s → processMessageQueue effect throws s = s.
Proof.
  intros (Hq & Hm & _). unfold processMessageQueue. by rewrite Hq, Hm.
Qed.

Lemma inv_connect fails (s : @State any) : inv s → inv (connect fails s).
Proof.
  intros Hinv. unfold connect. destruct fails.
  - apply inv_attemptReconnect.
    destruct Hinv as (Hq & Hm & Hmax & Hdel & Hrange & Hlog & Hiv).
    unfold inv; simpl. by rewrite attempts_since_open_snoc.
  - exact Hinv.
Qed.

Lemma inv_stopHeartbeat (s : @State any) : inv s → inv (stopHeartbeat s).
Proof.
  intros Hinv. unfold stopHeartbeat. destruct (heartbeatInterval s); [|done].
  destruct Hinv as (Hq & Hm & Hmax & Hdel & Hrange & Hlog & Hiv).
  unfold inv; simpl. split_and!; try done; try lia.
  apply Forall_forall. intros iv [_ Hin]%list_elem_of_filter.
  by apply (proj1 (Forall_forall _ _) Hiv).
Qed.

Lemma inv_step s e : inv s → inv (step effect throws s e).
Proof.
  intros Hinv.
  destruct e as [|frame| | |ms|k fails| |ty cb|ty cb| |json|]; simpl.
  - (* Opened *)
    unfold onopen. rewrite processMessageQueue_idle.
    + destruct Hinv as (Hq & Hm & Hmax & Hdel & Hrange & Hlog & Hiv).
      unfold inv; simpl. rewrite attempts_since_open_snoc.
      split_and!; try done.
      apply Forall_app. split; [done|]. by apply Forall_singleton.
    + destruct Hinv as (Hq & Hm & Hmax & Hdel & Hrange & Hlog & Hiv).
      unfold inv; simpl. rewrite attempts_since_open_snoc.
      split_and!; try done.
      apply Forall_app. split; [done|]. by apply Forall_singleton.
  - (* Received *)
    destruct frame as [d|]; simpl.
    + by apply inv_handleMessage.
    + destruct Hinv as (Hq & Hm & Hmax & Hdel & Hrange & Hlog & Hiv).
      unfold inv; simpl. by rewrite attempts_since_open_snoc.
  - (* Closed *)
    unfold onclose. apply inv_attemptReconnect, inv_stopHeartbeat.
    destruct Hinv as (Hq & Hm & Hmax & Hdel & Hrange & Hlog & Hiv).
    unfold inv; simpl. by rewrite attempts_since_open_snoc.
  - (* Errored *)
    destruct Hinv as (Hq & Hm & Hmax & Hdel & Hrange & Hlog & Hiv).
    unfold inv; simpl. by rewrite attempts_since_open_snoc.
  - (* Elapse *) exact Hinv.
  - (* Fire *)
    unfold fire. destruct (timeouts s !! k) as [[due t]|]; [|done].
    case_decide; [|done].
    destruct t.
    + apply inv_connect. exact Hinv.
    + apply inv_processNext. exact Hinv.
  - (* HeartbeatTick *)
    unfold heartbeat_tick. destruct (intervals s), (ws s) as [[]|]; done.
  - exact Hinv.
  - exact Hinv.
  - exact Hinv.
  - (* CallSend *)
    unfold send. destruct (ws s) as [[]|]; try done;
      destruct Hinv as (Hq & Hm & Hmax & Hdel & Hrange & Hlog & Hiv);
      unfold inv; simpl; by rewrite attempts_since_open_snoc.
  - (* CallDisconnect *)
    unfold disconnect. pose proof (inv_stopHeartbeat s Hinv) as Hs.
    exact Hs.
Qed.

Lemma inv_run_from tr : ∀ s, inv s → inv (run_from effect throws s tr).
Proof.
  induction tr as [|e tr IH]; intros s Hinv; simpl; [done|].
  apply IH. by apply inv_step.
Qed.

Lemma inv_run fails tr : inv (run effect throws fails tr).
Proof. apply inv_run_from. unfold new. apply inv_connect, inv_fields. Qed.

(** The queue is never in use: every frame is dispatched on receipt. *)
Lemma handleMessage_dispatches d s :
  inv s →
  handleMessage effect throws d s =
    foldl (invoke effect throws d) s
      (default [] (listeners s !! type d) ++ default [] (listeners s !! "*")).
Proof. intros (Hq & _). unfold handleMessage. by rewrite Hq. Qed.

Lemma attemptReconnect_schedules (s : @State any) :
  inv s → (reconnectAttempts s < 5)%Z →
  timeouts (attemptReconnect s)
  = timeouts s ++ [((now s + 1000 * 2 ^ reconnectAttempts s)%Z, ReconnectTask)]
  ∧ reconnectAttempts (attemptReconnect s) = (reconnectAttempts s + 1)%Z.
Proof.
  intros (Hq & Hm & Hmax & Hdel & Hrange & Hlog & Hiv) Hlt.
  unfold attemptReconnect. rewrite decide_False by lia. simpl.
  rewrite Hdel.
  by replace (reconnectAttempts s + 1 - 1)%Z with (reconnectAttempts s) by lia.
Qed.

Lemma attemptReconnect_gives_up (s : @State any) :
  inv s → reconnectAttempts s = 5%Z →
  timeouts (attemptReconnect s) = timeouts s
  ∧ reconnectAttempts (attemptReconnect s) = 5%Z.
Proof.
  intros (Hq & Hm & Hmax & Hdel & Hrange & Hlog & Hiv) H5.
  unfold attemptReconnect. rewrite decide_True by lia. done.
Qed.

Lemma stopHeartbeat_reconnect_fields (s : @State any) :
  timeouts (stopHeartbeat s) = timeouts s
  ∧ now (stopHeartbeat s) = now s
  ∧ reconnectAttempts (stopHeartbeat s) = reconnectAttempts s.
Proof. unfold stopHeartbeat. by destruct (heartbeatInterval s). Qed.

Lemma inv_closing (s : @State any) : inv s → inv (closing s).
Proof.
  intros Hinv. apply inv_stopHeartbeat.
  destruct Hinv as (Hq & Hm & Hmax & Hdel & Hrange & Hlog & Hiv).
  unfold inv; simpl. by rewrite attempts_since_open_snoc.
Qed.

Lemma closing_reconnect_fields (s : @State any) :
  timeouts (closing s) = timeouts s
  ∧ now (closing s) = now s
  ∧ reconnectAttempts (closing s) = reconnectAttempts s.
Proof. unfold closing. by destruct (stopHeartbeat_reconnect_fields
  (set_connectionStatus disconnected
     (log LogClosed (set_ws (option_map (λ _, CLOSED) (ws s)) s)))) as (-> & -> & ->). Qed.

(** C5.  In every run of the client, the reconnection attempts announced
    since the socket last opened are attempts 1, 2, ... with delays
    1000 * 2^(N-1) ms, and there are at most five of them.  When the
    socket closes (or `new WebSocket` throws) after N-1 such attempts,
    N from 1 to 5, `connect` is scheduled 1000 * 2^(N-1) ms from now and
    the counter becomes N; after five attempts nothing is scheduled; and
    `onopen` sets the counter to 0. *)
Theorem reconnect_backoff fails tr :
  let s := run effect throws fails tr in
  attempts_since_open (console s) = backoff_schedule (reconnectAttempts s)
  ∧ (0 ≤ reconnectAttempts s ≤ 5)%Z
  ∧ (∀ N, (1 ≤ N ≤ 5)%Z → reconnectAttempts s = (N - 1)%Z →
       timeouts (onclose s)
       = timeouts s ++ [((now s + 1000 * 2 ^ (N - 1))%Z, ReconnectTask)]
       ∧ timeouts (connect true s)
         = timeouts s ++ [((now s + 1000 * 2 ^ (N - 1))%Z, ReconnectTask)]
       ∧ reconnectAttempts (onclose s) = N
       ∧ reconnectAttempts (connect true s) = N)
  ∧ (reconnectAttempts s = 5%Z →
       timeouts (onclose s) = timeouts s
       ∧ timeouts (connect true s) = timeouts s
       ∧ reconnectAttempts (onclose s) = 5%Z
       ∧ reconnectAttempts (connect true s) = 5%Z)
  ∧ reconnectAttempts (onopen effect throws s) = 0%Z.
Proof.
  intros s. pose proof (inv_run fails tr) as Hinv. fold s in Hinv.
  pose proof Hinv as (Hq & Hm & Hmax & Hdel & Hrange & Hlog & Hiv).
  pose proof (inv_closing s Hinv) as Hcl.
  destruct (closing_reconnect_fields s) as (Ht & Hn & Ha).
  assert (Hfl : inv (log LogConnectFailed s)).
  { unfold inv; simpl. by rewrite attempts_since_open_snoc. }
  split_and!; try done; try lia.
  - intros N HN Hat.
    change (onclose s) with (attemptReconnect (closing s)).
    change (connect true s) with (attemptReconnect (log LogConnectFailed s)).
    destruct (attemptReconnect_schedules (closing s) Hcl) as [H1 H2]; [lia|].
    destruct (attemptReconnect_schedules (log LogConnectFailed s) Hfl) as [H3 H4];
      [simpl; lia|].
    rewrite H1, H2, H3, H4, Ht, Hn, Ha. simpl. rewrite Hat.
    split_and!; try done; lia.
  - intros H5.
    change (onclose s) with (attemptReconnect (closing s)).
    change (connect true s) with (attemptReconnect (log LogConnectFailed s)).
    destruct (attemptReconnect_gives_up (closing s) Hcl) as [H1 H2]; [lia|].
    destruct (attemptReconnect_gives_up (log LogConnectFailed s) Hfl) as [H3 H4];
      [done|].
    by rewrite H1, H2, H3, H4, Ht.
  - unfold onopen. rewrite processMessageQueue_idle; [done|].
    unfold inv; simpl. rewrite attempts_since_open_snoc.
    split_and!; try done.
    apply Forall_app. split; [done|]. by apply Forall_singleton.
Qed.

(** C10.  In every run of the client, a frame that parses is handed to
    each listener registered for its type and then to each listener
    registered for `*`, as they stand when the frame arrives, whichever of
    them throw and whatever they do to the listener table; the service is
    left ready to dispatch the next frame. *)
Theorem dispatch_reaches_every_listener fails tr d :
  let s := run effect throws fails tr in
  let s' := onmessage effect throws (Some d) s in
  calls s'
  = calls s ++ ((λ cb, (cb, d)) <$>
                  (default [] (listeners s !! type d) ++ default [] (listeners s !! "*")))
  ∧ isProcessingQueue s' = false
  ∧ messageQueue s' = [].
Proof.
  intros s s'. pose proof (inv_run fails tr) as Hinv. fold s in Hinv.
  unfold s'. simpl. split.
  - rewrite handleMessage_dispatches by done. apply dispatch_calls.
  - pose proof (inv_handleMessage d s Hinv) as (Hq & Hm & _). done.
Qed.

End WithPayload.

(** A throwing listener in the middle, and a listener that unsubscribes
    the one after it: all of them are called. *)
Example dispatch_with_a_throwing_listener :
  let s := run Scenario.quiet Scenario.unlucky false
             [Opened; CallSubscribe "alert" 1; CallSubscribe "alert" 13;
              CallSubscribe "alert" 2; CallSubscribe "alert" 3;
              CallSubscribe "*" 4; CallSubscribe "vessel" 5;
              Received (Some Scenario.storm)] in
  (calls s).*1 = [1; 13; 2; 3; 4]
  ∧ listeners s !! "alert" = Some [1; 13; 2]
  ∧ console s = [LogOpen; LogListenerError].
Proof. repeat split; reflexivity. Qed.

(** Five failures in a row, each timer firing when due, then a sixth. *)
Example five_attempts_then_none :
  let s := run Scenario.quiet Scenario.unlucky false
             [Opened;
              Closed; Elapse 1000; Fire 0 false;
              Closed; Elapse 2000; Fire 0 false;
              Closed; Elapse 4000; Fire 0 false;
              Closed; Elapse 8000; Fire 0 false;
              Closed; Elapse 16000; Fire 0 false;
              Closed] in
  attempts_since_open (console s)
  = [(1000, 1); (2000, 2); (4000, 3); (8000, 4); (16000, 5)]%Z
  ∧ timeouts s = []
  ∧ reconnectAttempts s = 5%Z
  ∧ connectionStatus s = disconnected.
Proof. repeat split; reflexivity. Qed.

Lemma reconnect_backoff_witness :
  timeouts (onclose (run Scenario.quiet Scenario.unlucky false [Opened; Closed; Elapse 1000; Fire 0 false]))
  = [(3000%Z, ReconnectTask)].
Proof.
  refine (eq_trans (proj1 (proj1 (proj2 (proj2 (reconnect_backoff Scenario.quiet Scenario.unlucky false
            [Opened; Closed; Elapse 1000; Fire 0 false]))) 2%Z _ _)) _).
  - lia.
  - reflexivity.
  - reflexivity.
Defined.

End ClientFacts.

(** ** Properties that span the hub, the Socket.IO variant and the client *)
Module Distribution.

Section WithSerializer.

Context {any : Type}.
Variable JSON_stringify : RealtimeData any → option string.
Variable effect :
  Client.Callback → RealtimeData any →
  gmap string (list Client.Callback) → gmap string (list Client.Callback).
Variable throws : Client.Callback → RealtimeData any → bool.

(** C6.  Delivery order is publish order.  In every run of the hub, for
    a connection that is in `clients` with its socket open and its `send`
    working, and through any stretch of the run that does not disturb it
    (no `close`, no `error`, no transport failure of its own), every
    string published in the stretch is written to its socket, and these
    writes come in publish order: the data frames added to the socket are
    exactly the strings published, so of two payloads published one after
    the other the first is written before the second, whatever their
    topics.  For any socket, disturbed or not, the data frames written are
    a subsequence of the strings published, in publish order.  In every
    run of the client, two frames received one after the other are
    dispatched one after the other: the calls made are those for the
    listeners of the first frame, then those for the listeners of the
    second, and nothing is left in the message queue. *)
Theorem order_is_preserved tr seg c fails ctr d1 d2 :
  let st := Hub.run JSON_stringify tr in
  c ∈ Hub.clients st →
  Hub.writable (Hub.sockets st c) = true →
  Forall (λ e, Observe.disturbs c e = false) seg →
  let st' := Hub.run_from JSON_stringify st seg in
  (∃ fs, Hub.sent (Hub.sockets st' c) = Hub.sent (Hub.sockets st c) ++ fs
         ∧ Hub.data_frames fs = Hub.published JSON_stringify seg)
  ∧ (∀ c', Hub.data_frames (Hub.sent (Hub.sockets st c'))
             `sublist_of` Hub.published JSON_stringify tr)
  ∧ (let s := Client.run effect throws fails ctr in
     let s1 := Client.onmessage effect throws (Some d1) s in
     let s2 := Client.onmessage effect throws (Some d2) s1 in
     Client.calls s2
     = Client.calls s
       ++ ((λ cb, (cb, d1)) <$>
             (default [] (Client.listeners s !! type d1)
              ++ default [] (Client.listeners s !! "*")))
       ++ ((λ cb, (cb, d2)) <$>
             (default [] (Client.listeners s1 !! type d2)
              ++ default [] (Client.listeners s1 !! "*")))
     ∧ Client.messageQueue s2 = []).
Proof.
  intros st Hc Hw Hall st'. split_and!.
  - by destruct (HubFacts.undisturbed_run JSON_stringify c seg st
                   (HubFacts.wf_run JSON_stringify tr) Hc Hw Hall) as (_ & _ & H).
  - intros c'. apply HubFacts.data_frames_sublist.
  - intros s s1 s2.
    pose proof (ClientFacts.inv_run effect throws fails ctr) as Hinv. fold s in Hinv.
    pose proof (ClientFacts.inv_handleMessage effect throws d1 s Hinv) as Hinv1.
    pose proof (ClientFacts.inv_handleMessage effect throws d2 _ Hinv1) as (_ & Hq2 & _).
    split; [|exact Hq2].
    unfold s2, s1. simpl.
    rewrite (ClientFacts.handleMessage_dispatches effect throws d2 _ Hinv1).
    rewrite ClientFacts.dispatch_calls.
    rewrite (ClientFacts.handleMessage_dispatches effect throws d1 _ Hinv) at 1.
    rewrite ClientFacts.dispatch_calls.
    by rewrite <- app_assoc.
Qed.

(** C7 (amended).  The hub has no heartbeat timeout.  A connection in
    `clients` whose `send` works stays in `clients` through every run in
    which it is not closed, does not raise `error` and its `send` does not
    start to throw, however long it stays silent.  A heartbeat from it is
    answered with one response echoing its timestamp when its socket is
    open, and with nothing when it is not; the heartbeat changes nothing
    else: not `clients`, not another socket, not the console.  No
    heartbeat, answered or not, changes `clients`.  On the client, every
    heartbeat interval runs with the constant period of 30000 ms: when the
    socket opens, an interval of 30000 ms is registered and kept as the
    service's heartbeat, and each of its ticks writes one heartbeat
    frame. *)
Theorem heartbeat_has_no_timeout tr c tr' fails ctr :
  let st := Hub.run JSON_stringify tr in
  c ∈ Hub.clients st →
  Hub.sendThrows (Hub.sockets st c) = false →
  Forall (λ e, Hub.harms c e = false) tr' →
  c ∈ Hub.clients (Hub.run_from JSON_stringify st tr')
  ∧ (∀ ts,
       let st1 := Hub.on_message c (Hub.Heartbeat ts) st in
       Hub.sent (Hub.sockets st1 c)
       = Hub.sent (Hub.sockets st c)
         ++ (if decide (Hub.readyState (Hub.sockets st c) = OPEN)
             then [Hub.HeartbeatResponse ts] else [])
       ∧ (∀ c', c' ≠ c → Hub.sockets st1 c' = Hub.sockets st c')
       ∧ Hub.clients st1 = Hub.clients st
       ∧ Hub.console st1 = Hub.console st)
  ∧ (∀ st0 ws ts,
       Hub.clients (Hub.on_message ws (Hub.Heartbeat ts) st0) = Hub.clients st0)
  ∧ (let s := Client.run effect throws fails ctr in
     let s1 := Client.onopen effect throws s in
     Forall (λ iv, iv.2 = 30000%Z) (Client.intervals s)
     ∧ Client.heartbeatInterval s1 = Some (Client.nextHandle s)
     ∧ Client.intervals s1 = Client.intervals s ++ [(Client.nextHandle s, 30000%Z)]
     ∧ (∀ r, Client.ws s = Some r →
          Client.wire (Client.heartbeat_tick s1)
          = Client.wire s ++ [Client.HeartbeatFrame])).
Proof.
  intros st Hc Hth Hall. split_and!.
  - apply HubFacts.stays_connected; try done. apply HubFacts.wf_run.
  - intros ts st1. unfold st1. simpl. unfold Hub.ws_send. rewrite Hth.
    case_decide; simpl.
    + rewrite fn_lookup_insert. split_and!; try done.
      intros c' Hne. by rewrite fn_lookup_insert_ne.
    + rewrite fn_lookup_insert, app_nil_r. split_and!; try done.
      intros c' Hne. by rewrite fn_lookup_insert_ne.
  - intros st0 ws ts. simpl. by destruct (Hub.ws_send _ _).
  - intros s s1.
    pose proof (ClientFacts.inv_run effect throws fails ctr) as Hinv. fold s in Hinv.
    assert (Hs1 : s1 = Client.startHeartbeat
               (Client.set_reconnectAttempts 0%Z
                  (Client.set_connectionStatus Client.connected
                     (Client.log Client.LogOpen
                        (Client.set_ws (option_map (λ _, OPEN) (Client.ws s)) s))))).
    { unfold s1, Client.onopen.
      apply ClientFacts.processMessageQueue_idle.
      destruct Hinv as (Hq & Hm & Hmax & Hdel & Hrange & Hlog & Hiv).
      unfold Client.inv; simpl. rewrite ClientFacts.attempts_since_open_snoc.
      split_and!; try done.
      apply Forall_app. split; [done|]. by apply Forall_singleton. }
    split_and!.
    + by destruct Hinv as (_ & _ & _ & _ & _ & _ & Hiv).
    + by rewrite Hs1.
    + by rewrite Hs1.
    + intros r Hr. rewrite Hs1. unfold Client.heartbeat_tick. simpl. rewrite Hr. simpl.
      by destruct (Client.intervals s).
Qed.

End WithSerializer.

(** C7, refuted as stated: whatever the timeout and the interval, a
    connection accepted at time 0 from which nothing is heard afterwards
    is still in `clients` when the hub publishes after more than their
    sum has passed. *)
Lemma silence_is_tolerated :
  ¬ ∃ timeout interval, Spec.heartbeat_liveness Scenario.stringify timeout interval.
Proof.
  intros (timeout & interval & H).
  set (t := (Z.max 0 (timeout + interval) + 1)%Z).
  set (tt := [(0%Z, @Hub.Connection Scenario.Payload); (t, Hub.Publish Scenario.storm)]).
  assert (Ht : (0 < t)%Z) by lia.
  assert (Hat0 : Spec.state_at Scenario.stringify tt 0
                 = Hub.run Scenario.stringify [Hub.Connection]).
  { unfold Spec.state_at, tt.
    rewrite filter_cons_True by (simpl; lia).
    rewrite filter_cons_False by (simpl; lia). done. }
  assert (Hatt : Spec.state_at Scenario.stringify tt t
                 = Hub.run Scenario.stringify [Hub.Connection; Hub.Publish Scenario.storm]).
  { unfold Spec.state_at, tt.
    rewrite filter_cons_True by (simpl; lia).
    rewrite filter_cons_True by (simpl; lia). done. }
  apply (H tt 0 0%Z t t (Hub.Publish Scenario.storm)).
  - unfold Spec.chronological, tt. simpl.
    repeat constructor. lia.
  - rewrite Hat0. vm_compute. constructor.
  - intros t' m [Hin|Hin%list_elem_of_singleton]%elem_of_cons; discriminate.
  - unfold tt. apply elem_of_cons. right. apply list_elem_of_singleton. done.
  - lia.
  - rewrite Hatt. vm_compute. constructor.
Qed.

Lemma order_is_preserved_witness :
  ∃ fs,
    Hub.sent (Hub.sockets
      (Hub.run_from Scenario.stringify (Hub.run Scenario.stringify [Hub.Connection])
         [Hub.Publish Scenario.storm; Hub.Message 0 (Hub.Heartbeat "12:00:03");
          Hub.Connection; Hub.Publish Scenario.cyclic; Hub.Publish Scenario.sample]) 0)
    = [Hub.Welcome] ++ fs
    ∧ Hub.data_frames fs
      = ["alert 2024-06-01T12:00:00.000Z weather_warning high Storm";
         "oceanographic 2024-06-01T12:00:05.000Z sea_surface_temp 18"].
Proof.
  refine (proj1 (order_is_preserved Scenario.stringify Scenario.quiet Scenario.unlucky
            [Hub.Connection]
            [Hub.Publish Scenario.storm; Hub.Message 0 (Hub.Heartbeat "12:00:03");
             Hub.Connection; Hub.Publish Scenario.cyclic; Hub.Publish Scenario.sample]
            0 false [] Scenario.storm Scenario.sample _ _ _)).
  - vm_compute. constructor.
  - reflexivity.
  - repeat constructor.
Defined.

Lemma heartbeat_has_no_timeout_witness :
  0 ∈ Hub.clients
        (Hub.run_from Scenario.stringify (Hub.run Scenario.stringify [Hub.Connection])
           [Hub.Publish Scenario.storm; Hub.PeerReads 0; Hub.Publish Scenario.sample]).
Proof.
  refine (proj1 (heartbeat_has_no_timeout Scenario.stringify Scenario.quiet
            Scenario.unlucky [Hub.Connection] 0
            [Hub.Publish Scenario.storm; Hub.PeerReads 0; Hub.Publish Scenario.sample]
            false [] _ _ _)).
  - vm_compute. constructor.
  - reflexivity.
  - repeat constructor.
Defined.

(** C8 (amended).  On the Socket.IO server a second subscribe request
    leaves the `realtime-data` room as the first left it, with the socket
    in it once; on the WebSocket hub a subscribe request changes neither
    `clients` nor any socket.  The client's `subscribe(type, callback)`
    never fails and is not idempotent: each call appends the callback to
    the listeners of the type and leaves the other types alone, so after
    two calls the callback is listed twice more. *)
Theorem subscribing_twice (st : SocketIO.State) (id : SocketIO.SocketId)
    (types1 types2 : list string) (hub : Hub.State) (ws : Hub.WsId)
    (ty : string) (callback : Client.Callback)
    (l : gmap string (list Client.Callback)) :
  NoDup (SocketIO.room st) →
  let st1 := SocketIO.on_subscribe id types1 st in
  let st2 := SocketIO.on_subscribe id types2 st1 in
  let l2 := Client.subscribe ty callback (Client.subscribe ty callback l) in
  SocketIO.room st2 = SocketIO.room st1
  ∧ length (filter (λ x, x = id) (SocketIO.room st2)) = 1
  ∧ Hub.clients (Hub.on_message ws (Hub.Subscribe types1) hub) = Hub.clients hub
  ∧ Hub.sockets (Hub.on_message ws (Hub.Subscribe types1) hub) = Hub.sockets hub
  ∧ l2 !! ty = Some (default [] (l !! ty) ++ [callback; callback])
  ∧ (∀ ty', ty' ≠ ty → l2 !! ty' = l !! ty').
Proof.
  intros Hnd st1 st2 l2. split_and!.
  - simpl. apply Set_add_idem.
  - simpl. rewrite Set_add_idem. apply NoDup_once.
    + by apply Set_add_NoDup.
    + apply elem_of_Set_add. by left.
  - done.
  - done.
  - unfold l2, Client.subscribe.
    rewrite !lookup_insert_eq. simpl. by rewrite <- app_assoc.
  - intros ty' Hne. unfold l2, Client.subscribe.
    by rewrite !lookup_insert_ne.
Qed.

(** C8, refuted as stated: subscribing the same callback twice is not the
    same as subscribing it once. *)
Lemma subscribe_appends : ¬ Spec.subscribe_idempotent.
Proof.
  intros H. specialize (H "alert" 7 ∅).
  apply (f_equal (λ m, m !! "alert")) in H.
  unfold Client.subscribe in H. rewrite !lookup_insert_eq in H.
  rewrite lookup_empty in H. discriminate.
Qed.

Lemma subscribing_twice_witness :
  (Client.subscribe "alert" 7 (Client.subscribe "alert" 7 ∅) : gmap string (list Client.Callback))
    !! "alert" = Some [7; 7].
Proof.
  refine (proj1 (proj2 (proj2 (proj2 (proj2
    (subscribing_twice SocketIO.init "s1" ["alert"] ["alert"] Hub.init 0 "alert" 7 ∅ _)))))).
  apply NoDup_nil_2.
Defined.

End Distribution.

(** ** More about the Socket.IO server *)
Module SocketIOFacts.
Import SocketIO SocketIORun.

Lemma socketio_run_snoc tr e : run (tr ++ [e]) = step (run tr) e.
Proof. unfold run, run_from. apply foldl_snoc. Qed.

Lemma room_NoDup tr : NoDup (room (run tr)).
Proof.
  induction tr as [|e tr IH] using rev_ind; [apply NoDup_nil_2|].
  rewrite socketio_run_snoc. destruct e; simpl; try done.
  - by apply Set_add_NoDup.
  - by apply Set_delete_NoDup.
  - by apply Set_delete_NoDup.
Qed.

(** X7.  In every run of the Socket.IO server, a socket is in the
    `realtime-data` room exactly when its last subscribe, unsubscribe or
    disconnect was a subscribe, whatever types the requests named, and it
    is in the room at most once. *)
Theorem room_follows_the_last_request tr id :
  (id ∈ room (run tr) ↔ last_was_subscribe id tr = true)
  ∧ length (filter (λ x, x = id) (room (run tr))) = (if last_was_subscribe id tr then 1 else 0).
Proof.
  assert (Hiff : ∀ tr, id ∈ room (run tr) ↔ last_was_subscribe id tr = true).
  { clear tr. intros tr. induction tr as [|e tr IH] using rev_ind.
    - simpl. split; [by intros ?%not_elem_of_nil|done].
    - rewrite socketio_run_snoc. unfold last_was_subscribe. rewrite foldl_snoc.
      fold (last_was_subscribe id tr).
      destruct e as [i|i text|i types|i types|i ts|i]; simpl; try exact IH.
      + rewrite elem_of_Set_add. case_decide as Hi.
        * split; [done|]. intros _. by left.
        * rewrite <- IH. split; [|by right].
          intros [Heq|Hin]; [by symmetry in Heq|done].
      + rewrite elem_of_Set_delete. case_decide as Hi.
        * split; [|done]. intros [Hne _]. by symmetry in Hi.
        * rewrite <- IH. split; [by intros [_ ?]|].
          intros Hin. split; [by intros ->|done].
      + rewrite elem_of_Set_delete. case_decide as Hi.
        * split; [|done]. intros [Hne _]. by symmetry in Hi.
        * rewrite <- IH. split; [by intros [_ ?]|].
          intros Hin. split; [by intros ->|done]. }
  split; [apply Hiff|].
  destruct (last_was_subscribe id tr) eqn:Hl.
  - apply NoDup_once; [apply room_NoDup|]. by apply Hiff.
  - rewrite filter_eq_absent; [done|]. intros Hin%Hiff. congruence.
Qed.

Lemma emitted_step st e id :
  emitted (step st e) id
  = emitted st id ++ (if decide (socket_of e = id) then reply e else []).
Proof.
  destruct e as [i|i text|i types|i types|i ts|i]; simpl;
    try (case_decide; by rewrite app_nil_r);
    (case_decide as Hi; [subst; by rewrite fn_lookup_insert
                        |rewrite fn_lookup_insert_ne by done; by rewrite app_nil_r]).
Qed.

(** X8.  In every run of the Socket.IO server, what a socket has been
    sent is, in order, the replies to its own events and nothing else: the
    welcome for its connection, an echo for each message, a confirmation
    for each subscribe, a response for each heartbeat, and nothing for an
    unsubscribe or a disconnect.  No event of another socket adds to it. *)
Theorem replies_go_to_the_sender tr id :
  emitted (run tr) id = concat (reply <$> filter (λ e, socket_of e = id) tr).
Proof.
  induction tr as [|e tr IH] using rev_ind; [done|].
  rewrite socketio_run_snoc, emitted_step, IH, filter_app, fmap_app, concat_app.
  f_equal. case_decide.
  - rewrite filter_cons_True by done. simpl. by rewrite app_nil_r.
  - by rewrite filter_cons_False by done.
Qed.

End SocketIOFacts.

(** ** More about `RealtimeDataProcessor` *)
Module ProcessorFacts.
Import Processor.

Section WithKey.

Context {any : Type}.
Variable key : RealtimeData any → string.

Lemma last_n_snoc (l : list (RealtimeData any)) d :
  (if decide (bufferSize < length (last_n bufferSize l ++ [d]))
   then tail (last_n bufferSize l ++ [d]) else last_n bufferSize l ++ [d])
  = last_n bufferSize (l ++ [d]).
Proof.
  unfold last_n, bufferSize. rewrite !length_app, length_drop. simpl.
  destruct (decide (length l < 10)) as [Hlt|Hge].
  - replace (length l - 10) with 0 by lia.
    replace (length l + 1 - 10) with 0 by lia. simpl.
    rewrite decide_False by lia. done.
  - rewrite decide_True by lia.
    replace (length l + 1 - 10) with (S (length l - 10)) by lia.
    rewrite drop_app_le by lia.
    assert (Hn : length l - 10 < length l) by lia.
    destruct (lookup_lt_is_Some_2 l _ Hn) as [x Hx].
    rewrite (drop_S _ _ _ Hx). done.
Qed.

Lemma fed_snoc ds d : fed key (ds ++ [d]) = addData key (fed key ds) d.
Proof. unfold fed. apply foldl_snoc. Qed.

(** X15.  After any sequence of `addData` calls on a new processor, the
    buffer of a key holds the last ten envelopes added under that key, in
    the order they were added (all of them while there are at most ten),
    so it never holds more than ten; a key has a buffer exactly when some
    envelope was added under it. *)
Theorem buffers_keep_the_last_ten ds k :
  default [] (fed key ds !! k) = last_n bufferSize (filter (λ d, key d = k) ds)
  ∧ length (default [] (fed key ds !! k)) ≤ bufferSize
  ∧ (is_Some (fed key ds !! k) ↔ ∃ d, d ∈ ds ∧ key d = k).
Proof.
  assert (Hbuf : ∀ ds,
    default [] (fed key ds !! k) = last_n bufferSize (filter (λ d, key d = k) ds)).
  { clear ds. intros ds. induction ds as [|d ds IH] using rev_ind; [done|].
    rewrite fed_snoc, filter_app. unfold addData.
    destruct (decide (key d = k)) as [<-|Hne].
    - rewrite lookup_insert_eq. simpl. rewrite IH.
      rewrite filter_cons_True by done. simpl. apply last_n_snoc.
    - rewrite lookup_insert_ne by done.
      rewrite filter_cons_False by done. simpl. by rewrite app_nil_r. }
  split_and!.
  - apply Hbuf.
  - rewrite Hbuf. unfold last_n, bufferSize. rewrite length_drop. lia.
  - induction ds as [|d ds IH] using rev_ind.
    + unfold fed. simpl. rewrite lookup_empty. split.
      * by intros [? ?].
      * intros (d & Hd & _). by apply not_elem_of_nil in Hd.
    + rewrite fed_snoc. unfold addData.
      destruct (decide (key d = k)) as [<-|Hne].
      * rewrite lookup_insert_eq. split; [|by eauto].
        intros _. exists d. split; [|done]. apply elem_of_app. right. by left.
      * rewrite lookup_insert_ne by done. rewrite IH. split.
        -- intros (d' & Hd' & Hk). exists d'. split; [|done].
           apply elem_of_app. by left.
        -- intros (d' & [Hd'|Hd']%elem_of_app & Hk); [by eauto|].
           apply list_elem_of_singleton in Hd'. by subst.
Qed.

End WithKey.
End ProcessorFacts.

(** ** More about `RealtimeService` *)
Module ClientUse.
Import Client Observe.

#[local] Arguments Z.le : simpl never.
#[local] Arguments Z.lt : simpl never.

Lemma indexOf_absent cb l : cb ∉ l → indexOf cb l = None.
Proof.
  induction l as [|x l IH]; intros Hcb; [done|].
  apply not_elem_of_cons in Hcb as [Hne Hcb]. simpl.
  rewrite decide_False by done. by rewrite IH.
Qed.

Lemma indexOf_first cb pre post :
  cb ∉ pre → indexOf cb (pre ++ cb :: post) = Some (length pre).
Proof.
  induction pre as [|x pre IH]; intros Hcb; simpl.
  - by rewrite decide_True.
  - apply not_elem_of_cons in Hcb as [Hne Hcb].
    rewrite decide_False by done. by rewrite IH.
Qed.

Lemma unsubscribe_first ty cb (l : gmap string (list Callback)) pre post :
  l !! ty = Some (pre ++ cb :: post) → cb ∉ pre →
  unsubscribe ty cb l = <[ty := pre ++ post]> l.
Proof.
  intros Hl Hpre. unfold unsubscribe. rewrite Hl, indexOf_first by done.
  by rewrite delete_middle.
Qed.

(** X9.  The function `subscribe` returns does nothing when the type has
    no listener array or the callback is not in it; otherwise it takes out
    the first occurrence of the callback and nothing else, leaving the
    other listeners of the type in their order and the other types as
    they were. *)
Theorem unsubscribe_removes_the_first ty cb (l : gmap string (list Callback)) :
  (l !! ty = None → unsubscribe ty cb l = l)
  ∧ (∀ ls, l !! ty = Some ls → cb ∉ ls → unsubscribe ty cb l = l)
  ∧ (∀ pre post, l !! ty = Some (pre ++ cb :: post) → cb ∉ pre →
       unsubscribe ty cb l !! ty = Some (pre ++ post)
       ∧ ∀ ty', ty' ≠ ty → unsubscribe ty cb l !! ty' = l !! ty').
Proof.
  split_and!.
  - intros Hl. unfold unsubscribe. by rewrite Hl.
  - intros ls Hl Hcb. unfold unsubscribe. by rewrite Hl, indexOf_absent.
  - intros pre post Hl Hpre. rewrite (unsubscribe_first _ _ _ _ _ Hl Hpre). split.
    + apply lookup_insert_eq.
    + intros ty' Hne. by apply lookup_insert_ne.
Qed.

Lemma unsubscribe_removes_the_first_witness :
  unsubscribe "alert" 7 ({["alert" := [1; 7; 2; 7]]} : gmap string (list Callback)) !! "alert"
  = Some [1; 2; 7].
Proof.
  refine (proj1 (proj2 (proj2 (unsubscribe_removes_the_first "alert" 7
            {["alert" := [1; 7; 2; 7]]})) [1] [2; 7] _ _)).
  - reflexivity.
  - intros Hin. apply list_elem_of_singleton in Hin. discriminate.
Defined.

(** X10.  Subscribing a callback and then calling the function returned
    leaves every type with the same listeners up to order, and with the
    very same list when the callback was not registered for the type
    before; a type that had no listener array keeps the empty array the
    call made for it. *)
Theorem subscribe_then_unsubscribe ty cb (l : gmap string (list Callback)) :
  (∀ ty', default [] (unsubscribe ty cb (subscribe ty cb l) !! ty')
          ≡ₚ default [] (l !! ty'))
  ∧ (cb ∉ default [] (l !! ty) →
       ∀ ty', default [] (unsubscribe ty cb (subscribe ty cb l) !! ty')
              = default [] (l !! ty'))
  ∧ (l !! ty = None → unsubscribe ty cb (subscribe ty cb l) = <[ty := []]> l).
Proof.
  set (base := default [] (l !! ty)).
  assert (Hsub : subscribe ty cb l !! ty = Some (base ++ [cb])).
  { unfold subscribe. apply lookup_insert_eq. }
  assert (Hfresh : cb ∉ base →
    unsubscribe ty cb (subscribe ty cb l) = <[ty := base]> l).
  { intros Hcb. rewrite (unsubscribe_first _ _ _ base [] Hsub Hcb).
    unfold subscribe. by rewrite insert_insert_eq, app_nil_r. }
  split_and!.
  - intros ty'.
    assert (Hin : cb ∈ base ++ [cb]) by (apply elem_of_app; right; by left).
    destruct (list_elem_of_split_l _ _ Hin) as (pre & post & Heq & Hpre).
    rewrite Heq in Hsub.
    rewrite (unsubscribe_first _ _ _ pre post Hsub Hpre).
    unfold subscribe. rewrite insert_insert_eq.
    destruct (decide (ty' = ty)) as [->|Hne].
    + rewrite lookup_insert_eq. simpl. fold base.
      apply (Permutation_cons_inv (a := cb)).
      rewrite Permutation_middle, <- Heq.
      by rewrite Permutation_app_comm.
    + by rewrite lookup_insert_ne.
  - intros Hcb ty'. rewrite (Hfresh Hcb).
    destruct (decide (ty' = ty)) as [->|Hne].
    + by rewrite lookup_insert_eq.
    + by rewrite lookup_insert_ne.
  - intros Hnone. rewrite Hfresh; unfold base; rewrite Hnone; [done|].
    apply not_elem_of_nil.
Qed.

Lemma subscribe_then_unsubscribe_witness :
  unsubscribe "alert" 7 (subscribe "alert" 7 (∅ : gmap string (list Callback)))
  = {["alert" := []]}.
Proof.
  exact (proj2 (proj2 (subscribe_then_unsubscribe "alert" 7 ∅)) eq_refl).
Defined.

Section WithPayload.

Context {any : Type}.
Variable effect :
  Callback → RealtimeData any → gmap string (list Callback) → gmap string (list Callback).
Variable throws : Callback → RealtimeData any → bool.

Lemma run_app fails tr tr' :
  run effect throws fails (tr ++ tr')
  = run_from effect throws (run effect throws fails tr) tr'.
Proof. unfold run, run_from. apply foldl_app. Qed.

(** What a dispatch leaves alone, besides the fields of the invariant. *)
Lemma dispatch_rest d l : ∀ s : @State any,
  wire (foldl (invoke effect throws d) s l) = wire s
  ∧ ws (foldl (invoke effect throws d) s l) = ws s
  ∧ connectionStatus (foldl (invoke effect throws d) s l) = connectionStatus s
  ∧ heartbeatInterval (foldl (invoke effect throws d) s l) = heartbeatInterval s.
Proof.
  induction l as [|cb l IH]; intros s; simpl; [done|].
  destruct (IH (invoke effect throws d s cb)) as (-> & -> & -> & ->).
  unfold invoke. by destruct (throws cb d).
Qed.

(** X11.  Cancelling at the client works: when a callback is registered
    once for a type (and not for `*`), then after the function returned by
    `subscribe` has been called, the next frame of that type is handed to
    the other listeners of the type and to the `*` listeners, in order,
    and not to that callback. *)
Theorem unsubscribed_listener_is_not_called fails tr ty cb pre post d :
  let s0 := run effect throws fails tr in
  listeners s0 !! ty = Some (pre ++ cb :: post) →
  cb ∉ pre → cb ∉ post → cb ∉ default [] (listeners s0 !! "*") →
  ty ≠ "*" → type d = ty →
  let s := run effect throws fails (tr ++ [CallUnsubscribe ty cb; Received (Some d)]) in
  calls s = calls s0 ++ ((λ c, (c, d)) <$> (pre ++ post ++ default [] (listeners s0 !! "*")))
  ∧ ∀ x, (cb, x) ∉ drop (length (calls s0)) (calls s).
Proof.
  intros s0 Hl Hpre Hpost Hstar Hty Hd s.
  pose proof (ClientFacts.inv_run effect throws fails tr) as Hinv. fold s0 in Hinv.
  assert (Hcalls : calls s
    = calls s0 ++ ((λ c, (c, d)) <$> (pre ++ post ++ default [] (listeners s0 !! "*")))).
  { unfold s. rewrite run_app. fold s0. simpl.
    set (s1 := set_listeners (unsubscribe ty cb (listeners s0)) s0).
    assert (Hinv1 : inv s1) by exact Hinv.
    rewrite (ClientFacts.handleMessage_dispatches effect throws d s1 Hinv1).
    rewrite ClientFacts.dispatch_calls. simpl.
    rewrite (unsubscribe_first _ _ _ _ _ Hl Hpre), Hd.
    rewrite lookup_insert_eq, lookup_insert_ne by done. simpl.
    by rewrite <- app_assoc. }
  split; [exact Hcalls|].
  intros x. rewrite Hcalls, drop_app_length.
  intros (c & Heq & Hin)%list_elem_of_fmap. injection Heq as <- _.
  apply elem_of_app in Hin as [Hin|Hin]; [done|].
  apply elem_of_app in Hin as [Hin|Hin]; done.
Qed.

Lemma wire_attemptReconnect (s : @State any) : wire (attemptReconnect s) = wire s.
Proof. unfold attemptReconnect. by case_decide. Qed.

Lemma wire_stopHeartbeat (s : @State any) : wire (stopHeartbeat s) = wire s.
Proof. unfold stopHeartbeat. by destruct (heartbeatInterval s). Qed.

(** The state in which `onopen` calls `processMessageQueue`. *)
Lemma inv_opening (s : @State any) :
  inv s →
  inv (startHeartbeat
         (set_reconnectAttempts 0%Z
            (set_connectionStatus connected
               (log LogOpen (set_ws (option_map (λ _, OPEN) (ws s)) s))))).
Proof.
  intros (Hq & Hm & Hmax & Hdel & Hrange & Hlog & Hiv).
  unfold inv; simpl. rewrite ClientFacts.attempts_since_open_snoc.
  split_and!; try done.
  apply Forall_app. split; [done|]. by apply Forall_singleton.
Qed.

(** Every event but a call of `send` leaves the JSON texts written as
    they were. *)
Lemma payloads_step s e :
  inv s → is_send e = false →
  payloads (wire (step effect throws s e)) = payloads (wire s).
Proof.
  intros Hinv He.
  destruct e as [|frame| | |ms|k fails| |ty cb|ty cb| |json|]; simpl; try done.
  - unfold onopen. by rewrite ClientFacts.processMessageQueue_idle by (by apply inv_opening).
  - destruct frame as [d|]; simpl; [|done].
    rewrite (ClientFacts.handleMessage_dispatches effect throws d s Hinv).
    by destruct (dispatch_rest d
      (default [] (listeners s !! type d) ++ default [] (listeners s !! "*")) s) as (-> & _).
  - unfold onclose. by rewrite wire_attemptReconnect, wire_stopHeartbeat.
  - unfold fire. destruct (timeouts s !! k) as [[due t]|]; [|done].
    case_decide; [|done]. destruct t.
    + unfold connect. destruct fails; [|done]. by rewrite wire_attemptReconnect.
    + unfold processNext. simpl. destruct Hinv as (_ & -> & _). done.
  - unfold heartbeat_tick. destruct (intervals s), (ws s) as [[]|]; try done.
    simpl. unfold payloads. rewrite omap_app. simpl. by rewrite app_nil_r.
  - unfold disconnect. simpl. by rewrite wire_stopHeartbeat.
Qed.

Lemma payloads_run_from tr : ∀ s,
  inv s → Forall (λ e, is_send e = false) tr →
  payloads (wire (run_from effect throws s tr)) = payloads (wire s).
Proof.
  induction tr as [|e tr IH]; intros s Hinv Hall; simpl; [done|].
  apply Forall_cons in Hall as [He Hall].
  rewrite IH; [by apply payloads_step| |done].
  by apply ClientFacts.inv_step.
Qed.

(** X12.  `send` does not queue.  In every run, a `send` made while the
    socket is not open writes nothing, and what it was given is not
    written later either, whatever happens next (reconnection included),
    unless `send` is called again; a `send` made while the socket is open
    writes its text once, after the texts written before. *)
Theorem a_dropped_send_is_lost fails tr json tr' :
  let s := run effect throws fails tr in
  Forall (λ e, is_send e = false) tr' →
  (ws s ≠ Some OPEN →
     payloads (wire (run effect throws fails (tr ++ CallSend json :: tr')))
     = payloads (wire s))
  ∧ (ws s = Some OPEN →
     payloads (wire (run effect throws fails (tr ++ CallSend json :: tr')))
     = payloads (wire s) ++ [json]).
Proof.
  intros s Hall.
  pose proof (ClientFacts.inv_run effect throws fails tr) as Hinv. fold s in Hinv.
  rewrite run_app. fold s. simpl.
  assert (Hinv1 : inv (send json s))
    by apply (ClientFacts.inv_step effect throws s (CallSend json) Hinv).
  rewrite (payloads_run_from tr' _ Hinv1 Hall).
  unfold send. split.
  - intros Hws. destruct (ws s) as [[]|]; done.
  - intros ->. simpl. unfold payloads. by rewrite omap_app.
Qed.





Lemma only_reconnects_attemptReconnect (s : @State any) :
  only_reconnects s → only_reconnects (attemptReconnect s).
Proof.
  intros H. unfold attemptReconnect, only_reconnects. case_decide; [done|].
  simpl. apply Forall_app. split; [done|]. by apply Forall_singleton.
Qed.

Lemma only_reconnects_stopHeartbeat (s : @State any) :
  only_reconnects s → only_reconnects (stopHeartbeat s).
Proof. unfold stopHeartbeat, only_reconnects. by destruct (heartbeatInterval s). Qed.

Lemma only_reconnects_step s e :
  inv s → only_reconnects s → only_reconnects (step effect throws s e).
Proof.
  intros Hinv H.
  destruct e as [|frame| | |ms|k fails| |ty cb|ty cb| |json|]; simpl; try done.
  - unfold onopen. by rewrite ClientFacts.processMessageQueue_idle by (by apply inv_opening).
  - destruct frame as [d|]; simpl; [|done].
    rewrite (ClientFacts.handleMessage_dispatches effect throws d s Hinv).
    unfold only_reconnects.
    destruct (ClientFacts.dispatch_fields effect throws d
      (default [] (listeners s !! type d) ++ default [] (listeners s !! "*")) s)
      as (_ & _ & _ & _ & _ & _ & _ & -> & _). done.
  - unfold onclose. apply only_reconnects_attemptReconnect.
    by apply only_reconnects_stopHeartbeat.
  - unfold fire. destruct (timeouts s !! k) as [[due t]|]; [|done].
    case_decide; [|done].
    assert (Hdel : only_reconnects (set_timeouts (delete k (timeouts s)) s)).
    { unfold only_reconnects. simpl. by apply Forall_delete. }
    destruct t.
    + unfold connect. destruct fails; [|done].
      by apply only_reconnects_attemptReconnect.
    + unfold processNext. simpl. destruct Hinv as (_ & -> & _). done.
  - unfold heartbeat_tick. by destruct (intervals s), (ws s) as [[]|].
  - unfold send. by destruct (ws s) as [[]|].
  - unfold disconnect. simpl. by apply only_reconnects_stopHeartbeat.
Qed.

(** X14.  The message queue of the service is never in use: in every run
    the queue is empty and `isProcessingQueue` is false, so
    `processMessageQueue` changes nothing, and no timeout is ever pending
    for `processNext`: the pending timeouts are all reconnections. *)
Theorem the_message_queue_is_never_used fails tr :
  let s := run effect throws fails tr in
  messageQueue s = [] ∧ isProcessingQueue s = false
  ∧ processMessageQueue effect throws s = s
  ∧ Forall (λ t, t.2 = ReconnectTask) (timeouts s).
Proof.
  intros s.
  pose proof (ClientFacts.inv_run effect throws fails tr) as Hinv. fold s in Hinv.
  split_and!; try apply Hinv.
  - by apply ClientFacts.processMessageQueue_idle.
  - unfold s, run. clear s Hinv.
    assert (Hnew : inv (@new any fails) ∧ only_reconnects (@new any fails)).
    { split; [apply (ClientFacts.inv_run effect throws fails [])|].
      unfold new, connect. destruct fails; [|by apply Forall_nil].
      apply only_reconnects_attemptReconnect. by apply Forall_nil. }
    revert Hnew. generalize (@new any fails).
    induction tr as [|e tr IH]; intros s [Hinv H]; simpl; [exact H|].
    apply IH. split.
    + by apply ClientFacts.inv_step.
    + by apply only_reconnects_step.
Qed.

Lemma status_attemptReconnect (s : @State any) :
  connectionStatus (attemptReconnect s) = connectionStatus s.
Proof. unfold attemptReconnect. by case_decide. Qed.

Lemma status_stopHeartbeat (s : @State any) :
  connectionStatus (stopHeartbeat s) = connectionStatus s.
Proof. unfold stopHeartbeat. by destruct (heartbeatInterval s). Qed.

(** Nothing but the socket opening makes the status `connected`. *)
Lemma not_connected_step s e :
  inv s → is_opened e = false →
  connectionStatus s ≠ connected →
  connectionStatus (step effect throws s e) ≠ connected.
Proof.
  intros Hinv He Hs.
  destruct e as [|frame| | |ms|k fails| |ty cb|ty cb| |json|]; simpl; try done.
  - destruct frame as [d|]; simpl; [|done].
    rewrite (ClientFacts.handleMessage_dispatches effect throws d s Hinv).
    by destruct (dispatch_rest d
      (default [] (listeners s !! type d) ++ default [] (listeners s !! "*")) s)
      as (_ & _ & -> & _).
  - unfold onclose. by rewrite status_attemptReconnect, status_stopHeartbeat.
  - unfold fire. destruct (timeouts s !! k) as [[due t]|]; [|done].
    case_decide; [|done]. destruct t.
    + unfold connect. destruct fails; [|done]. by rewrite status_attemptReconnect.
    + unfold processNext. simpl. destruct Hinv as (_ & -> & _). done.
  - unfold heartbeat_tick. by destruct (intervals s), (ws s) as [[]|].
  - unfold send. by destruct (ws s) as [[]|].
  - unfold disconnect. simpl. by rewrite status_stopHeartbeat.
Qed.

(** X16.  `getConnectionStatus()` does not stay on `connected` after the
    socket is lost: in every run, once a `close` or `error` event has been
    handled, the status is not `connected` for as long as no socket opens,
    whatever else happens; and right after the socket opens it is
    `connected`. *)
Theorem status_is_not_connected_after_a_loss fails tr e tr' :
  e = Closed ∨ e = Errored →
  Forall (λ e', is_opened e' = false) tr' →
  getConnectionStatus (run effect throws fails (tr ++ e :: tr')) ≠ connected
  ∧ getConnectionStatus (run effect throws fails (tr ++ e :: tr' ++ [Opened])) = connected.
Proof.
  intros He Hall. split.
  - rewrite run_app. simpl.
    pose proof (ClientFacts.inv_run effect throws fails tr) as Hinv.
    set (s := run effect throws fails tr) in *.
    assert (Hs1 : inv (step effect throws s e) ∧
                  connectionStatus (step effect throws s e) ≠ connected).
    { split; [by apply ClientFacts.inv_step|].
      destruct He as [-> | ->]; simpl; [|done].
      unfold onclose. by rewrite status_attemptReconnect, status_stopHeartbeat. }
    revert Hs1. generalize (step effect throws s e). clear s Hinv He.
    induction tr' as [|e' tr' IH]; intros s [Hinv Hs]; simpl; [done|].
    apply Forall_cons in Hall as [He' Hall].
    apply IH; [done|]. split.
    + by apply ClientFacts.inv_step.
    + by apply not_connected_step.
  - replace (tr ++ e :: tr' ++ [Opened]) with ((tr ++ e :: tr') ++ [Opened])
      by (by rewrite <- app_assoc).
    rewrite run_app. simpl.
    pose proof (ClientFacts.inv_run effect throws fails (tr ++ e :: tr')) as Hinv.
    unfold onopen, getConnectionStatus.
    by rewrite ClientFacts.processMessageQueue_idle by (by apply inv_opening).
Qed.

(** Once five attempts are spent and no timer is pending, nothing but the
    socket opening changes that. *)
Lemma exhausted_step s e :
  inv s → is_opened e = false →
  reconnectAttempts s = 5%Z → timeouts s = [] →
  connectionStatus s ≠ connecting →
  reconnectAttempts (step effect throws s e) = 5%Z
  ∧ timeouts (step effect throws s e) = []
  ∧ connectionStatus (step effect throws s e) ≠ connecting.
Proof.
  intros Hinv He Ha Ht Hc.
  destruct e as [|frame| | |ms|k fails| |ty cb|ty cb| |json|]; simpl; try done.
  - destruct frame as [d|]; simpl; [|done].
    rewrite (ClientFacts.handleMessage_dispatches effect throws d s Hinv).
    destruct (ClientFacts.dispatch_fields effect throws d
      (default [] (listeners s !! type d) ++ default [] (listeners s !! "*")) s)
      as (_ & _ & _ & _ & -> & _ & _ & -> & _).
    by destruct (dispatch_rest d
      (default [] (listeners s !! type d) ++ default [] (listeners s !! "*")) s)
      as (_ & _ & -> & _).
  - change (onclose s) with (attemptReconnect (closing s)).
    destruct (ClientFacts.closing_reconnect_fields s) as (Ht' & Hn' & Ha').
    destruct (ClientFacts.attemptReconnect_gives_up (closing s)
                (ClientFacts.inv_closing s Hinv)) as [H1 H2]; [by rewrite Ha'|].
    rewrite H1, H2, Ht', Ht, status_attemptReconnect.
    split_and!; try done. unfold closing. by rewrite status_stopHeartbeat.
  - unfold fire. by rewrite Ht.
  - unfold heartbeat_tick. by destruct (intervals s), (ws s) as [[]|].
  - unfold send. by destruct (ws s) as [[]|].
  - destruct (ClientFacts.stopHeartbeat_reconnect_fields s) as (-> & _ & ->).
    by rewrite status_stopHeartbeat.
Qed.

(** X17.  Giving up is final.  In every run, once five reconnection
    attempts are spent, no timer is pending and the service is not
    connecting, nothing it handles afterwards schedules a connection or
    starts one, for as long as no socket opens: the counter stays at five,
    no timeout is pending and the status is never `connecting`.  No public
    method restarts it. *)
Theorem giving_up_is_final fails tr tr' :
  let s := run effect throws fails tr in
  reconnectAttempts s = 5%Z → timeouts s = [] → connectionStatus s ≠ connecting →
  Forall (λ e, is_opened e = false) tr' →
  let s' := run effect throws fails (tr ++ tr') in
  reconnectAttempts s' = 5%Z ∧ timeouts s' = [] ∧ connectionStatus s' ≠ connecting.
Proof.
  intros s Ha Ht Hc Hall s'. unfold s'. rewrite run_app. fold s.
  pose proof (ClientFacts.inv_run effect throws fails tr) as Hinv. fold s in Hinv.
  clearbody s. clear s'. revert s Ha Ht Hc Hinv.
  induction tr' as [|e tr' IH]; intros s Ha Ht Hc Hinv; simpl; [done|].
  apply Forall_cons in Hall as [He Hall].
  destruct (exhausted_step s e Hinv He Ha Ht Hc) as (Ha' & Ht' & Hc').
  apply IH; try done. by apply ClientFacts.inv_step.
Qed.

End WithPayload.

Lemma unsubscribed_listener_is_not_called_witness :
  (calls (run Scenario.quiet Scenario.unlucky false
            [CallSubscribe "alert" 1; CallSubscribe "alert" 7; CallSubscribe "*" 4;
             CallUnsubscribe "alert" 7; Received (Some Scenario.storm)])).*1
  = [1; 4].
Proof.
  refine (eq_trans (f_equal (fmap fst) (proj1
    (unsubscribed_listener_is_not_called Scenario.quiet Scenario.unlucky false
       [CallSubscribe "alert" 1; CallSubscribe "alert" 7; CallSubscribe "*" 4]
       "alert" 7 [1] [] Scenario.storm _ _ _ _ _ _))) _).
  - reflexivity.
  - intros Hin. apply list_elem_of_singleton in Hin. discriminate.
  - apply not_elem_of_nil.
  - intros Hin. apply list_elem_of_singleton in Hin. discriminate.
  - discriminate.
  - reflexivity.
  - reflexivity.
Defined.

Lemma a_dropped_send_is_lost_witness :
  payloads (wire (run Scenario.quiet Scenario.unlucky false
                    ([Closed] ++ CallSend "ping" :: [Elapse 1000; Fire 0 false; Opened])))
  = [].
Proof.
  refine (eq_trans (proj1 (a_dropped_send_is_lost Scenario.quiet Scenario.unlucky false
            [Closed] "ping" [Elapse 1000; Fire 0 false; Opened] _) _) _).
  - repeat constructor.
  - discriminate.
  - reflexivity.
Defined.


Lemma status_is_not_connected_after_a_loss_witness :
  getConnectionStatus
    (run Scenario.quiet Scenario.unlucky false
       ([Opened] ++ Closed :: [CallSend "ping"; CallDisconnect; Elapse 1000; Fire 0 false]))
  ≠ connected.
Proof.
  refine (proj1 (status_is_not_connected_after_a_loss Scenario.quiet Scenario.unlucky
    false [Opened] Closed [CallSend "ping"; CallDisconnect; Elapse 1000; Fire 0 false]
    _ _)).
  - by left.
  - repeat constructor.
Defined.

Lemma giving_up_is_final_witness :
  timeouts
    (run Scenario.quiet Scenario.unlucky true
       ([Elapse 1000; Fire 0 true; Elapse 2000; Fire 0 true; Elapse 4000; Fire 0 true;
         Elapse 8000; Fire 0 true; Elapse 16000; Fire 0 true]
        ++ [Closed; CallSend "ping"; Elapse 60000; Fire 0 false; Errored]))
  = [].
Proof.
  refine (proj1 (proj2 (giving_up_is_final Scenario.quiet Scenario.unlucky true
    [Elapse 1000; Fire 0 true; Elapse 2000; Fire 0 true; Elapse 4000; Fire 0 true;
     Elapse 8000; Fire 0 true; Elapse 16000; Fire 0 true]
    [Closed; CallSend "ping"; Elapse 60000; Fire 0 false; Errored] _ _ _ _))).
  - reflexivity.
  - reflexivity.
  - discriminate.
  - repeat constructor.
Defined.

End ClientUse.

(** ** More about the WebSocket hub *)
Module HubUse.
Import Hub Observe.

Lemma filter_ext_in {A} (P Q : A → Prop) `{!∀ x, Decision (P x), !∀ x, Decision (Q x)}
    (l : list A) :
  (∀ x, x ∈ l → P x ↔ Q x) → filter P l = filter Q l.
Proof.
  induction l as [|a l IH]; intros Hall; [done|].
  assert (Ha : P a ↔ Q a) by (apply Hall, elem_of_cons; by left).
  assert (Hl : filter P l = filter Q l).
  { apply IH. intros x Hx. apply Hall, elem_of_cons. by right. }
  destruct (decide (P a)) as [HP|HP].
  - rewrite !filter_cons_True by tauto. by rewrite Hl.
  - rewrite !filter_cons_False by tauto. done.
Qed.

Lemma filter_all {A} (P : A → Prop) `{!∀ x, Decision (P x)} (l : list A) :
  (∀ x, x ∈ l → P x) → filter P l = l.
Proof.
  induction l as [|a l IH]; intros Hall; [done|].
  rewrite filter_cons_True by (apply Hall, elem_of_cons; by left).
  rewrite IH; [done|]. intros x Hx. apply Hall, elem_of_cons. by right.
Qed.

Section WithSerializer.

Context {any : Type}.
Variable JSON_stringify : RealtimeData any → option string.

(** The `clients` set after the loop of [broadcast] over [l], as a list. *)
Lemma fanout_clients_eq m l : ∀ st,
  clients (foldl (send_to m) st l)
  = filter (λ c, ¬ (c ∈ l ∧ broken (sockets st c) = true)) (clients st).
Proof.
  induction l as [|x l IH]; intros st; cbn [foldl].
  - symmetry. apply filter_all. intros c _ [Hin _]. by apply not_elem_of_nil in Hin.
  - rewrite IH, HubFacts.send_to_clients.
    destruct (broken (sockets st x)) eqn:Hb.
    + unfold Set_delete. rewrite list_filter_filter. apply list_filter_iff.
      intros c. rewrite HubFacts.send_to_broken, elem_of_cons. split.
      * intros [Hno Hne] [[->|Hin] Hbc]; [done|]. by apply Hno.
      * intros Hno. split.
        -- intros [Hin Hbc]. apply Hno. split; [by right|done].
        -- intros ->. apply Hno. split; [by left|done].
    + apply list_filter_iff.
      intros c. rewrite HubFacts.send_to_broken, elem_of_cons. split.
      * intros Hno [[->|Hin] Hbc]; [congruence|]. by apply Hno.
      * intros Hno [Hin Hbc]. apply Hno. split; [by right|done].
Qed.

Lemma fanout_broken m l : ∀ st c,
  broken (sockets (foldl (send_to m) st l) c) = broken (sockets st c).
Proof.
  induction l as [|x l IH]; intros st c; cbn [foldl]; [done|].
  by rewrite IH, HubFacts.send_to_broken.
Qed.

(** X3.  In every run, a fan-out that returns leaves in `clients`, in
    their order, exactly the clients whose socket was not open with a
    throwing `send`; none of those left is in that condition, so a second
    fan-out right after it removes nobody. *)
Theorem a_fan_out_purges_failing_clients tr d message d2 :
  JSON_stringify d = Some message →
  let st := run JSON_stringify tr in
  let st' := state_of (broadcast JSON_stringify d st) in
  clients st' = filter (λ c, broken (sockets st c) = false) (clients st)
  ∧ (∀ c, c ∈ clients st' → broken (sockets st' c) = false)
  ∧ clients (state_of (broadcast JSON_stringify d2 st')) = clients st'.
Proof.
  intros Hd st st'.
  assert (Hst' : st' = foldl (send_to message) st (clients st)).
  { unfold st'. by rewrite (HubFacts.broadcast_Returned _ _ _ _ Hd). }
  assert (Hcl : clients st' = filter (λ c, broken (sockets st c) = false) (clients st)).
  { rewrite Hst', fanout_clients_eq. apply filter_ext_in.
    intros c Hc. split.
    - intros Hno. destruct (broken (sockets st c)); [|done]. exfalso. by apply Hno.
    - intros Hb [_ Hb']. congruence. }
  assert (Hok : ∀ c, c ∈ clients st' → broken (sockets st' c) = false).
  { intros c. rewrite Hcl, Hst', fanout_broken.
    by intros [? _]%list_elem_of_filter. }
  split_and!; [done|done|].
  unfold broadcast. destruct (JSON_stringify d2) as [m2|]; simpl; [|done].
  rewrite fanout_clients_eq. apply filter_all.
  intros c Hc [_ Hb]. rewrite (Hok c Hc) in Hb. done.
Qed.

(** Frames are only ever appended to the socket of an accepted
    connection. *)
Lemma sent_step st e c :
  wf st → c < nextId st →
  c < nextId (step JSON_stringify st e)
  ∧ ∃ more, sent (sockets (step JSON_stringify st e) c) = sent (sockets st c) ++ more.
Proof.
  intros Hwf Hc. pose proof Hwf as (Hnd & _).
  destruct e as [|ws m|ws|ws|d|ws rs th|ws]; simpl.
  - split; [lia|]. exists []. rewrite fn_lookup_insert_ne by lia. by rewrite app_nil_r.
  - destruct m as [|ts|types|types|]; simpl;
      try (split; [done|]; exists []; by rewrite app_nil_r).
    unfold ws_send. destruct (sendThrows (sockets st ws)); simpl;
      [split; [done|]; exists []; by rewrite app_nil_r|].
    case_decide; simpl; (split; [done|]).
    + destruct (decide (ws = c)) as [->|Hne].
      * rewrite fn_lookup_insert. by eexists.
      * rewrite fn_lookup_insert_ne by done. exists []. by rewrite app_nil_r.
    + destruct (decide (ws = c)) as [->|Hne].
      * rewrite fn_lookup_insert. exists []. by rewrite app_nil_r.
      * rewrite fn_lookup_insert_ne by done. exists []. by rewrite app_nil_r.
  - split; [done|]. exists []. by rewrite app_nil_r.
  - split; [done|]. exists []. by rewrite app_nil_r.
  - unfold broadcast. destruct (JSON_stringify d) as [m|]; simpl.
    + rewrite HubFacts.fanout_nextId. split; [done|].
      rewrite HubFacts.fanout_sockets by done.
      case_decide; [|exists []; by rewrite app_nil_r].
      destruct (writable (sockets st c)); [by eexists|exists []; by rewrite app_nil_r].
    + split; [done|]. exists []. by rewrite app_nil_r.
  - split; [done|]. destruct (decide (ws = c)) as [->|Hne].
    + rewrite fn_lookup_insert. exists []. by rewrite app_nil_r.
    + rewrite fn_lookup_insert_ne by done. exists []. by rewrite app_nil_r.
  - unfold peer_reads. case_decide; simpl; (split; [done|]).
    + destruct (decide (ws = c)) as [->|Hne].
      * rewrite fn_lookup_insert. exists []. by rewrite app_nil_r.
      * rewrite fn_lookup_insert_ne by done. exists []. by rewrite app_nil_r.
    + exists []. by rewrite app_nil_r.
Qed.

Lemma sent_run_from tr c : ∀ st,
  wf st → c < nextId st →
  ∃ more, sent (sockets (run_from JSON_stringify st tr) c) = sent (sockets st c) ++ more.
Proof.
  induction tr as [|e tr IH]; intros st Hwf Hc; simpl.
  - exists []. by rewrite app_nil_r.
  - destruct (sent_step st e c Hwf Hc) as (Hc' & more & Hmore).
    destruct (IH _ (HubFacts.wf_step JSON_stringify st e Hwf) Hc') as (more' & Hmore').
    exists (more ++ more'). rewrite Hmore', Hmore. by rewrite app_assoc.
Qed.

Lemma nextId_connections tr :
  nextId (run JSON_stringify tr) = connections tr.
Proof.
  induction tr as [|e tr IH] using rev_ind; [done|].
  rewrite HubFacts.run_snoc. unfold connections. rewrite omap_app, length_app.
  fold (connections tr). rewrite <- IH.
  destruct e as [|ws m|ws|ws|d|ws rs th|ws]; simpl; try lia.
  - by destruct m; simpl; try lia; destruct (ws_send _ _); simpl; lia.
  - unfold broadcast. destruct (JSON_stringify d); simpl; [|lia].
    rewrite HubFacts.fanout_nextId. lia.
  - unfold peer_reads. case_decide; simpl; lia.
Qed.

Lemma welcome_first tr c :
  c < connections tr →
  ∃ rest, sent (sockets (run JSON_stringify tr) c) = Welcome :: rest.
Proof.
  induction tr as [|e tr IH] using rev_ind; intros Hc.
  - unfold connections in Hc. simpl in Hc. lia.
  - rewrite HubFacts.run_snoc.
    destruct (decide (c < connections tr)) as [Hlt|Hge].
    + destruct (IH Hlt) as (rest & Hrest).
      destruct (sent_step (run JSON_stringify tr) e c (HubFacts.wf_run _ tr))
        as (_ & more & Hmore); [by rewrite nextId_connections|].
      exists (rest ++ more). by rewrite Hmore, Hrest.
    + unfold connections in Hc. rewrite omap_app, length_app in Hc.
      fold (connections tr) in Hc.
      destruct e as [|ws m|ws|ws|d|ws rs th|ws]; simpl in Hc; try lia.
      simpl. exists []. rewrite nextId_connections.
      replace (connections tr) with c by lia. by rewrite fn_lookup_insert.
Qed.

(** X1.  In every run of the hub, the objects created are as many as the
    connections accepted; the first frame written to an accepted
    connection is the welcome, and whatever happens afterwards the frames
    written to it stay, in their order: later frames are only appended. *)
Theorem the_welcome_comes_first tr tr' c :
  nextId (run JSON_stringify tr) = connections tr
  ∧ (c < connections tr →
     ∃ rest more,
       sent (sockets (run JSON_stringify tr) c) = Welcome :: rest
       ∧ sent (sockets (run JSON_stringify (tr ++ tr')) c) = Welcome :: rest ++ more).
Proof.
  split; [apply nextId_connections|].
  intros Hc. destruct (welcome_first tr c Hc) as (rest & Hrest).
  destruct (sent_run_from tr' c (run JSON_stringify tr) (HubFacts.wf_run _ tr))
    as (more & Hmore); [by rewrite nextId_connections|].
  exists rest, more. split; [done|].
  unfold run, run_from in *. rewrite foldl_app, Hmore, Hrest. done.
Qed.

(** X2.  In every run of the hub, the heartbeat responses written to a
    connection echo, in order, timestamps of heartbeats that the hub
    received from that very connection, each at most once. *)
Theorem heartbeats_are_echoed_to_their_sender tr c :
  heartbeat_responses (sent (sockets (run JSON_stringify tr) c))
    `sublist_of` heartbeats_from c tr.
Proof.
  induction tr as [|e tr IH] using rev_ind; [done|].
  rewrite HubFacts.run_snoc. unfold heartbeats_from. rewrite omap_app. simpl.
  fold (heartbeats_from c tr).
  pose proof (HubFacts.wf_run JSON_stringify tr) as (Hnd & _).
  set (st := run JSON_stringify tr) in *.
  destruct e as [|ws m|ws|ws|d|ws rs th|ws]; simpl;
    try (rewrite app_nil_r; exact IH).
  - rewrite app_nil_r. destruct (decide (nextId st = c)) as [<-|Hne].
    + rewrite fn_lookup_insert. simpl. apply sublist_nil_l.
    + by rewrite fn_lookup_insert_ne.
  - destruct m as [|ts|types|types|]; simpl; try (rewrite app_nil_r; exact IH).
    unfold ws_send. destruct (sendThrows (sockets st ws)); simpl;
      [by apply sublist_inserts_r|].
    case_decide; simpl.
    + destruct (decide (ws = c)) as [->|Hne].
      * rewrite fn_lookup_insert. simpl. unfold heartbeat_responses.
        rewrite omap_app. simpl. by apply sublist_app.
      * rewrite fn_lookup_insert_ne by done. by apply sublist_inserts_r.
    + destruct (decide (ws = c)) as [->|Hne].
      * rewrite fn_lookup_insert. by apply sublist_inserts_r.
      * rewrite fn_lookup_insert_ne by done. by apply sublist_inserts_r.
  - rewrite app_nil_r. unfold broadcast. destruct (JSON_stringify d) as [m|]; simpl; [|done].
    rewrite HubFacts.fanout_sockets by done.
    case_decide; [|done]. destruct (writable (sockets st c)); [|done].
    simpl. unfold heartbeat_responses. rewrite omap_app. simpl. by rewrite app_nil_r.
  - rewrite app_nil_r. destruct (decide (ws = c)) as [->|Hne].
    + by rewrite fn_lookup_insert.
    + by rewrite fn_lookup_insert_ne.
  - rewrite app_nil_r. unfold peer_reads. case_decide; [|done]. simpl.
    destruct (decide (ws = c)) as [->|Hne].
    + by rewrite fn_lookup_insert.
    + by rewrite fn_lookup_insert_ne.
Qed.

End WithSerializer.

Lemma the_welcome_comes_first_witness :
  ∃ rest more,
    sent (sockets (run Scenario.stringify [Connection]) 0) = Welcome :: rest
    ∧ sent (sockets (run Scenario.stringify ([Connection] ++ [Publish Scenario.storm])) 0)
      = Welcome :: rest ++ more.
Proof.
  apply (proj2 (the_welcome_comes_first Scenario.stringify
                  [Connection] [Publish Scenario.storm] 0)).
  unfold connections. simpl. lia.
Defined.

Lemma a_fan_out_purges_failing_clients_witness :
  clients (state_of (broadcast Scenario.stringify Scenario.storm
                       (run Scenario.stringify
                          [Connection; Connection; Transport 0 OPEN true])))
  = [1].
Proof.
  refine (eq_trans (proj1 (a_fan_out_purges_failing_clients Scenario.stringify
            [Connection; Connection; Transport 0 OPEN true]
            Scenario.storm _ Scenario.sample eq_refl)) _).
  reflexivity.
Defined.

End HubUse.

(** ** The routes *)
Module RouteFacts.
Import Route.

Section WithJson.

Context {json : Type}.
Variable JSON_stringify : RealtimeData (@Payload json) → option string.

Lemma route_run_snoc tr e :
  run JSON_stringify (tr ++ [e]) = step JSON_stringify (run JSON_stringify tr) e.
Proof. unfold run, run_from. apply foldl_snoc. Qed.

Lemma stop_nothing : Generators.stopGenerating Generators.init = Generators.init.
Proof. done. Qed.

Lemma publish_hub d st :
  hub (publish JSON_stringify d st).1
  = Hub.state_of (Hub.broadcast JSON_stringify d (hub st))
  ∧ wss (publish JSON_stringify d st).1 = wss st
  ∧ generators (publish JSON_stringify d st).1 = generators st.
Proof. unfold publish. by destruct (Hub.broadcast _ _ _). Qed.

(** `POST` either leaves the state alone or makes one call of
    `broadcast`. *)
Lemma POST_state now body st :
  (POST JSON_stringify now body st).1 = st
  ∨ ∃ d, (POST JSON_stringify now body st).1 = (publish JSON_stringify d st).1.
Proof.
  unfold POST. destruct body as [b|]; [|by left].
  repeat case_decide; try (by left);
    (destruct (body_data b); [right; by eexists|by left]).
Qed.

Lemma broadcast_no_clients d h :
  Hub.clients h = [] → Hub.state_of (Hub.broadcast JSON_stringify d h) = h.
Proof.
  intros Hc. unfold Hub.broadcast.
  destruct (JSON_stringify d); simpl; [|done]. by rewrite Hc.
Qed.

Lemma route_inv_step st e : inv st → inv (step JSON_stringify st e).
Proof.
  intros Hinv. pose proof Hinv as (Hg & Hwf & Hh).
  destruct e as [|now body|e|h d| |]; simpl.
  - unfold initializeWebSocketServer. destruct (wss st) eqn:Hw; simpl.
    + exact Hinv.
    + rewrite (Hh eq_refl). simpl. split_and!; try done. apply HubFacts.wf_init.
  - destruct (POST_state now body st) as [->|[d ->]]; [done|].
    destruct (publish_hub d st) as (Hp & Hw & Hg').
    split_and!.
    + by rewrite Hg'.
    + rewrite Hp. by apply HubFacts.wf_broadcast.
    + rewrite Hw, Hp. intros Hf. rewrite (Hh Hf). by apply broadcast_no_clients.
  - assert (Hstep : inv (if wss st
       then mkState (wss st) (Hub.step JSON_stringify (hub st) e) (generators st)
       else st)).
    { destruct (wss st) eqn:Hw; [|exact Hinv].
      split_and!; simpl; [done| |done]. by apply HubFacts.wf_step. }
    by destruct e.
  - rewrite Hg. simpl. exact Hinv.
  - destruct (wss st && _); [|exact Hinv]. split_and!; simpl; try done.
    by rewrite Hg.
  - destruct (wss st) eqn:Hw; [|exact Hinv]. split_and!; simpl; try done.
    by rewrite Hg.
Qed.

Lemma route_inv_run tr : inv (run JSON_stringify tr).
Proof.
  induction tr as [|e tr IH] using rev_ind.
  - split_and!; [done|apply HubFacts.wf_init|done].
  - rewrite route_run_snoc. by apply route_inv_step.
Qed.

(** X4.  The WebSocket route never starts its generators.  The server is
    created with an empty client set, the test `clients.size === 1` is
    made only then, and nothing else calls `startGenerating`: in every
    run no interval is registered or running, so no interval callback ever
    publishes, and before the first `GET` the hub has no client at all. *)
Theorem the_generators_never_start tr :
  let st := run JSON_stringify tr in
  Generators.intervals (generators st) = ∅
  ∧ Generators.timers (generators st) = []
  ∧ (∀ h d, step JSON_stringify st (Tick h d) = st)
  ∧ (wss st = false → Hub.clients (hub st) = []).
Proof.
  intros st. destruct (route_inv_run tr) as (Hg & _ & Hh). fold st in Hg, Hh.
  split_and!.
  - by rewrite Hg.
  - by rewrite Hg.
  - intros h d. simpl. rewrite Hg. done.
  - intros Hw. by rewrite (Hh Hw).
Qed.

Lemma publish_spec d st :
  Hub.wf (hub st) →
  match JSON_stringify d with
  | Some message =>
      (publish JSON_stringify d st).2 = Broadcasted
      ∧ delivered message st (publish JSON_stringify d st).1
  | None =>
      (publish JSON_stringify d st).2 = InternalError
      ∧ (publish JSON_stringify d st).1 = st
  end.
Proof.
  intros (Hnd & _). unfold publish, Hub.broadcast.
  destruct (JSON_stringify d) as [message|]; simpl.
  - split; [done|]. intros c. simpl. split.
    + intros Hc Hw. rewrite HubFacts.fanout_sockets by done.
      rewrite decide_True by done. by rewrite Hw.
    + intros Hno. rewrite HubFacts.fanout_sockets by done.
      case_decide as Hc; [|done]. destruct Hno as [Hno|Hno]; [done|].
      by rewrite (HubFacts.not_open_not_writable _ Hno).
  - split; [done|]. by destruct st.
Qed.

(** X5.  `POST` in every run of the route.  It answers 400, touching
    nothing, exactly when the body can be read and its type is none of
    `custom_alert`, `update_prediction` and `system_message`.  It answers
    success only for one of these types with a `data` object, and then
    one envelope stamped with the current time was serialized and written
    once to every client that is open and able to send, and to no other
    socket; the envelope's type is `alert`, `prediction` or `system`
    according to the message type.  Every other answer is the 500 one and
    leaves the state as it was. *)
Theorem post_answers tr now body :
  let st := run JSON_stringify tr in
  let r := POST JSON_stringify now body st in
  (r.2 = UnknownType ↔ ∃ b, body = Some b ∧ ¬ known b)
  ∧ (r.2 ≠ Broadcasted → r.1 = st ∧ (r.2 = UnknownType ∨ r.2 = InternalError))
  ∧ (r.2 = Broadcasted →
       ∃ b d message,
         body = Some b ∧ known b ∧ is_Some (body_data b)
         ∧ JSON_stringify d = Some message
         ∧ timestamp d = now
         ∧ (body_type b = Some "custom_alert" → type d = "alert")
         ∧ (body_type b = Some "update_prediction" → type d = "prediction")
         ∧ (body_type b = Some "system_message" → type d = "system")
         ∧ delivered message st r.1).
Proof.
  intros st r. destruct (route_inv_run tr) as (_ & Hwf & _). fold st in Hwf.
  unfold r, POST. clear r.
  destruct body as [b|]; simpl.
  2:{ split_and!; [|by auto|done]. split; [done|]. by intros (b & ? & _). }
  assert (Hpub : ∀ d,
    (type d = "alert" ∧ body_type b = Some "custom_alert"
     ∨ type d = "prediction" ∧ body_type b = Some "update_prediction"
     ∨ type d = "system" ∧ body_type b = Some "system_message") →
    timestamp d = now → is_Some (body_data b) →
    let r := publish JSON_stringify d st in
    (r.2 = UnknownType ↔ ∃ b', Some b = Some b' ∧ ¬ known b')
    ∧ (r.2 ≠ Broadcasted → r.1 = st ∧ (r.2 = UnknownType ∨ r.2 = InternalError))
    ∧ (r.2 = Broadcasted →
         ∃ b' d' message,
           Some b = Some b' ∧ known b' ∧ is_Some (body_data b')
           ∧ JSON_stringify d' = Some message
           ∧ timestamp d' = now
           ∧ (body_type b' = Some "custom_alert" → type d' = "alert")
           ∧ (body_type b' = Some "update_prediction" → type d' = "prediction")
           ∧ (body_type b' = Some "system_message" → type d' = "system")
           ∧ delivered message st r.1)).
  { intros d Hty Hts Hdata r.
    assert (Hknown : known b) by (unfold known; tauto).
    pose proof (publish_spec d st Hwf) as Hspec. fold r in Hspec.
    destruct (JSON_stringify d) as [message|] eqn:Hd; destruct Hspec as [Hr Hst].
    - rewrite Hr. split_and!.
      + split; [done|]. intros (b' & [= <-] & Hno). done.
      + done.
      + intros _. exists b, d, message. split_and!; try done.
        * intros Hb. destruct Hty as [[? _]|[[_ Hb']|[_ Hb']]]; [done|congruence..].
        * intros Hb. destruct Hty as [[_ Hb']|[[? _]|[_ Hb']]]; [congruence|done|congruence].
        * intros Hb. destruct Hty as [[_ Hb']|[[_ Hb']|[? _]]]; [congruence..|done].
    - rewrite Hr. split_and!.
      + split; [done|]. intros (b' & [= <-] & Hno). done.
      + intros _. split; [done|by right].
      + done. }
  assert (Hfail : ∀ st0 : State, known b →
    ((st0, InternalError).2 = UnknownType ↔ ∃ b', Some b = Some b' ∧ ¬ known b')
    ∧ ((st0, InternalError).2 ≠ Broadcasted →
         (st0, InternalError).1 = st0
         ∧ ((st0, InternalError).2 = UnknownType ∨ (st0, InternalError).2 = InternalError))
    ∧ ((st0, InternalError).2 = Broadcasted →
         ∃ b' d' message,
           Some b = Some b' ∧ known b' ∧ is_Some (body_data b')
           ∧ JSON_stringify d' = Some message
           ∧ timestamp d' = now
           ∧ (body_type b' = Some "custom_alert" → type d' = "alert")
           ∧ (body_type b' = Some "update_prediction" → type d' = "prediction")
           ∧ (body_type b' = Some "system_message" → type d' = "system")
           ∧ delivered message st (st0, InternalError).1)).
  { intros st0 Hknown. simpl. split_and!; [|by auto|done].
    split; [done|]. intros (b' & [= <-] & Hno). done. }
  case_decide as H1; [|case_decide as H2; [|case_decide as H3]].
  - destruct (body_data b) as [data|] eqn:Hdata.
    + apply Hpub; [by left|done|by eexists].
    + apply Hfail. by left.
  - destruct (body_data b) as [data|] eqn:Hdata.
    + apply Hpub; [right; by left|done|by eexists].
    + apply Hfail. right. by left.
  - destruct (body_data b) as [data|] eqn:Hdata.
    + apply Hpub; [right; by right|done|by eexists].
    + apply Hfail. right. by right.
  - simpl. split_and!.
    + split; [|done]. intros _. exists b. split; [done|].
      unfold known. tauto.
    + intros _. split; [done|by left].
    + done.
Qed.

End WithJson.

Lemma the_generators_never_start_witness :
  Hub.clients (hub (run RouteScenario.stringify [Post "t0" (Some RouteScenario.storm_request)]))
  = [].
Proof.
  apply (proj2 (proj2 (proj2 (the_generators_never_start RouteScenario.stringify
           [Post "t0" (Some RouteScenario.storm_request)])))).
  reflexivity.
Defined.

Lemma post_answers_witness :
  (POST RouteScenario.stringify "t1" (Some (mkBody (Some "ping") None))
     (run RouteScenario.stringify [Get; Socket Hub.Connection])).2
  = UnknownType.
Proof.
  apply (proj2 (proj1 (post_answers RouteScenario.stringify
           [Get; Socket Hub.Connection] "t1" (Some (mkBody (Some "ping") None))))).
  eexists. split; [reflexivity|].
  unfold known. simpl. intros [H|[H|H]]; discriminate.
Defined.

End RouteFacts.

Module LoggingRouteFacts.
Import Generators LoggingRoute.

Lemma started_handles h (k : nat) :
  k < 4 → h + k ∈ handles (started h).
Proof.
  intros Hk. unfold handles. apply list_elem_of_fmap.
  assert (Hcase : k = 0 ∨ k = 1 ∨ k = 2 ∨ k = 3) by lia.
  destruct Hcase as [-> | [-> | [-> | ->]]].
  - exists ("oceanographic", h + 0). split; [done|].
    apply elem_of_map_to_list. simpl.
    rewrite !lookup_insert_ne by done. rewrite lookup_insert_eq. f_equal. lia.
  - exists ("prediction", h + 1). split; [done|].
    apply elem_of_map_to_list. simpl.
    rewrite !lookup_insert_ne by done. rewrite lookup_insert_eq. f_equal. lia.
  - exists ("vessel", h + 2). split; [done|].
    apply elem_of_map_to_list. simpl.
    rewrite !lookup_insert_ne by done. rewrite lookup_insert_eq. f_equal. lia.
  - exists ("alerts", h + 3). split; [done|].
    apply elem_of_map_to_list. simpl.
    rewrite lookup_insert_eq. f_equal. lia.
Qed.

Lemma stop_started h : stopGenerating (started h) = Generators.mkState ∅ [] (h + 4).
Proof.
  unfold stopGenerating. f_equal.
  - change (timers (started h))
      with [(h, 5000%Z); (S h, 10000%Z); (S (S h), 15000%Z); (S (S (S h)), 30000%Z)].
    pose proof (started_handles h 0) as H0. pose proof (started_handles h 1) as H1.
    pose proof (started_handles h 2) as H2. pose proof (started_handles h 3) as H3.
    replace (h + 0) with h in H0 by lia. replace (h + 1) with (S h) in H1 by lia.
    replace (h + 2) with (S (S h)) in H2 by lia.
    replace (h + 3) with (S (S (S h))) in H3 by lia.
    rewrite !filter_cons_False; [done|simpl; intros Hn; apply Hn; auto with lia..].
  - simpl. lia.
Qed.

Lemma started_running h : isRunning (started h) = true.
Proof.
  unfold isRunning. apply bool_decide_eq_true_2.
  assert (size (intervals (started h)) ≠ 0); [|lia].
  apply map_size_non_empty_iff. simpl. apply insert_non_empty.
Qed.

(** X6.  In every run of the route whose `broadcast` only logs, the
    generators are either stopped, with no timer running, or running with
    exactly their four timers, of 5, 10, 15 and 30 seconds, every one of
    them held in `intervals`: a second `GET` starts nothing more, and a
    termination signal always leaves no timer running. *)
Theorem the_four_timers_never_leak tr :
  let g := run tr in
  ((∃ h, g = Generators.mkState ∅ [] h) ∨ (∃ h, g = started h))
  ∧ ((timers g).*2 = [] ∨ (timers g).*2 = [5000; 10000; 15000; 30000]%Z)
  ∧ (∀ t, t ∈ timers g → t.1 ∈ handles g)
  ∧ timers (stopGenerating g) = []
  ∧ initializeDataGenerators (initializeDataGenerators g) = initializeDataGenerators g.
Proof.
  intros g.
  assert (Hform : ∀ tr, (∃ h, run tr = Generators.mkState ∅ [] h) ∨ (∃ h, run tr = started h)).
  { clear. intros tr. induction tr as [|e tr IH] using rev_ind; [left; by exists 0|].
    unfold run. rewrite foldl_snoc. fold (run tr).
    destruct e; simpl; try exact IH.
    - destruct IH as [[h ->] | [h ->]].
      + right. exists h. done.
      + right. exists h. unfold initializeDataGenerators. by rewrite started_running.
    - destruct IH as [[h ->] | [h ->]].
      + left. by exists h.
      + left. exists (h + 4). apply stop_started. }
  split; [apply Hform|].
  destruct (Hform tr) as [[h Hg]|[h Hg]]; fold g in Hg; rewrite Hg.
  - split_and!; try done; [by left|].
    intros t Ht. by apply not_elem_of_nil in Ht.
  - split_and!.
    + by right.
    + intros t Ht.
      change (timers (started h))
        with [(h, 5000%Z); (S h, 10000%Z); (S (S h), 15000%Z); (S (S (S h)), 30000%Z)] in Ht.
      pose proof (started_handles h 0) as H0. pose proof (started_handles h 1) as H1.
      pose proof (started_handles h 2) as H2. pose proof (started_handles h 3) as H3.
      replace (h + 0) with h in H0 by lia. replace (h + 1) with (S h) in H1 by lia.
      replace (h + 2) with (S (S h)) in H2 by lia.
      replace (h + 3) with (S (S (S h))) in H3 by lia.
      repeat (apply elem_of_cons in Ht as [-> | Ht]; [simpl; auto with lia|]).
      by apply not_elem_of_nil in Ht.
    + by rewrite stop_started.
    + unfold initializeDataGenerators. by rewrite !started_running.
Qed.

Lemma the_four_timers_never_leak_witness :
  0 ∈ handles (run [Get; Post; Get]).
Proof.
  apply (proj1 (proj2 (proj2 (the_four_timers_never_leak [Get; Post; Get]))) (0, 5000%Z)).
  vm_compute. constructor.
Defined.

End LoggingRouteFacts.
